(** * TSP.cpp: the nearest-neighbour tour builder and its report

    A shallow embedding of [TSP::nearestNeighbor] and [TSP::Tour::display]
    as implemented in src/TSP.cpp (the copy under "Project 3" is the
    starting skeleton, whose [nearestNeighbor] is still empty).  [size_t]
    is a 64-bit unsigned integer, embedded in [N] with its wrap-around
    written out; [double] is IEEE 754 binary64, embedded in the Standard
    Library's executable specification [spec_float]; [std::list<Node>] and
    [std::vector] are lists, and a list iterator is the position it points
    at, [length l] being [end()]. *)

From Stdlib Require Import String Ascii DecimalString.
From Stdlib Require Import NArith ZArith List Bool Lia Permutation.
From Stdlib Require Import Floats.SpecFloat.
Import ListNotations.

Local Open Scope N_scope.

(** ** Machine types *)

Module SizeT.

Definition width : N := 64.
Definition modulus : N := 2 ^ width.

(** [a + b] on [size_t]: unsigned addition wraps around. *)
Definition add (a b : N) : N := (a + b) mod modulus.

(** The sum of a vector of [size_t], accumulated in [size_t]. *)
Definition sum (l : list N) : N := fold_left add l 0.

End SizeT.

Module Double.

Definition prec : Z := 53.
Definition emax : Z := 1024.

Definition sub : spec_float -> spec_float -> spec_float := SFsub prec emax.
Definition add : spec_float -> spec_float -> spec_float := SFadd prec emax.
Definition mul : spec_float -> spec_float -> spec_float := SFmul prec emax.
Definition sqrt : spec_float -> spec_float := SFsqrt prec emax.

(** The double nearest to the integer [z] (exact for |z| <= 2^53). *)
Definition of_Z (z : Z) : spec_float := binary_normalize prec emax z 0 false.

Definition is_finite (f : spec_float) : bool :=
  match f with
  | S754_zero _ | S754_finite _ _ _ => true
  | S754_infinity _ | S754_nan => false
  end.

(** The integral part of a finite double, fraction discarded. *)
Definition trunc (m : positive) (e : Z) : Z :=
  match e with
  | Z0 => Zpos m
  | Zpos p => Z.shiftl (Zpos m) (Zpos p)
  | Zneg p => Z.shiftr (Zpos m) (Zpos p)
  end.

(** [static_cast<size_t>(f)]: the value is truncated toward zero; the
    conversion is undefined ([None]) when the truncated value is not a
    [size_t] (NaN, an infinity, 2^64 or more, -1 or less). *)
Definition to_size_t (f : spec_float) : option N :=
  match f with
  | S754_zero _ => Some 0
  | S754_finite s m e =>
      let t := trunc m e in
      if s then (if Z.eqb t 0 then Some 0 else None)
      else if Z.ltb t (Z.of_N SizeT.modulus) then Some (Z.to_N t) else None
  | S754_infinity _ | S754_nan => None
  end.

End Double.

(** ** Data model *)

(** Modelled from the spec: [Node] (its header is not part of the sources):
    a city, [{id: unsigned integer, x: floating-point, y: floating-point}]. *)
Record Node : Type := mkNode { id : N; x : spec_float; y : spec_float }.

(** [TSP::Tour]: [std::vector<Node> path], [std::vector<size_t> weights],
    [size_t total_distance]. *)
Record Tour : Type := mkTour {
  path : list Node;
  weights : list N;
  total_distance : N
}.

(** Modelled from the spec: the double that [Node::distance] (declared in
    the absent header) narrows, the Euclidean distance
    [sqrt((x1-x2)^2 + (y1-y2)^2)] computed in double precision. *)
Definition euclidean (a b : Node) : spec_float :=
  let dx := Double.sub (x a) (x b) in
  let dy := Double.sub (y a) (y b) in
  Double.sqrt (Double.add (Double.mul dx dx) (Double.mul dy dy)).

(** Modelled from the spec: [Node::distance] (declared in the absent
    header), the Euclidean distance narrowed to [size_t], which truncates
    toward zero.  [None] where the narrowing is undefined. *)
Definition Node_distance (a b : Node) : option N :=
  Double.to_size_t (euclidean a b).

(** A distance function as the tour builder sees it, [size_t
    distance(const Node&) const], implements the specified distance when it
    returns the specified value wherever that value is defined. *)
Definition implements (distance : Node -> Node -> N) : Prop :=
  forall a b d, Node_distance a b = Some d -> distance a b = d.

(** The implementation that returns [undef] where the specified value is
    not defined. *)
Definition distance_or (undef : N) (a b : Node) : N :=
  match Node_distance a b with Some d => d | None => undef end.

(** The specified distance is defined between any two of [pts]. *)
Definition defined_on (pts : list Node) : bool :=
  forallb (fun a =>
    forallb (fun b =>
      match Node_distance a b with Some _ => true | None => false end) pts)
    pts.

(** The city [i] at the integer coordinates ([px], [py]). *)
Definition pt (i : N) (px py : Z) : Node :=
  mkNode i (Double.of_Z px) (Double.of_Z py).

(** ** Outcomes

    A call returns, or runs into undefined behaviour (an invalid iterator
    dereferenced or erased, a vector read out of range), or is cut by the
    iteration bound the model gives its loops. *)
Inductive outcome (A : Type) : Type :=
| Returned (a : A)
| Undefined
| OutOfFuel.

Arguments Returned {A} a.
Arguments Undefined {A}.
Arguments OutOfFuel {A}.

Definition bind {A B : Type} (o : outcome A) (k : A -> outcome B) : outcome B :=
  match o with
  | Returned a => k a
  | Undefined => Undefined
  | OutOfFuel => OutOfFuel
  end.

Notation "x <- o ;; k" := (bind o (fun x => k))
  (at level 61, o at next level, right associativity).

(** ** Lists, vectors and iterators *)

(** [*it]: the end iterator (or any position past it) must not be
    dereferenced. *)
Definition deref {A : Type} (l : list A) (it : nat) : outcome A :=
  match nth_error l it with
  | Some v => Returned v
  | None => Undefined
  end.

(** [l.erase(it)]: [it] must be dereferenceable. *)
Definition erase {A : Type} (l : list A) (it : nat) : outcome (list A) :=
  match nth_error l it with
  | Some _ => Returned (firstn it l ++ skipn (S it) l)
  | None => Undefined
  end.

(** [v.front()]: undefined on an empty vector. *)
Definition front {A : Type} (v : list A) : outcome A := deref v 0.

(** ** TSP::nearestNeighbor *)

(** The locals the [while] loop of [nearestNeighbor] works on: the
    parameter object [cities], [current] and [tour]. *)
Record locals : Type := mkLocals {
  cities : list Node;
  current : Node;
  tour : Tour
}.

(** Lines 149-157: the position of the first city whose id is [start_id];
    [cities.end()], that is [length cities], when there is none. *)
Fixpoint find_start (cs : list Node) (start_id : N) : nat :=
  match cs with
  | [] => 0%nat
  | c :: rest => if id c =? start_id then 0%nat else S (find_start rest start_id)
  end.

Section NearestNeighbor.

(** [Node::distance], a function from two nodes to a [size_t]. *)
Variable distance : Node -> Node -> N.

(** Lines 173-182: the [for] loop over the cities after the first; [it]
    is the position of the head of [rest]. *)
Fixpoint scan (cur : Node) (rest : list Node) (it : nat)
         (min_distance : N) (nearest_it : nat) : N * nat :=
  match rest with
  | [] => (min_distance, nearest_it)
  | c :: rest' =>
      let dist := distance cur c in
      if dist <? min_distance
      then scan cur rest' (S it) dist it
      else scan cur rest' (S it) min_distance nearest_it
  end.

(** Lines 170-182: the nearest unvisited city, as (min_distance,
    nearest_it). *)
Definition find_nearest (cur : Node) (cs : list Node) : outcome (N * nat) :=
  first <- deref cs 0 ;;
  Returned (scan cur (tl cs) 1 (distance cur first) 0).

(** Lines 169-191: one iteration of the [while] loop. *)
Definition loop_body (st : locals) : outcome locals :=
  sel <- find_nearest (current st) (cities st) ;;
  let '(min_distance, nearest_it) := sel in
  nearest <- deref (cities st) nearest_it ;;
  let tour' :=
    mkTour (path (tour st) ++ [nearest])
           (weights (tour st) ++ [min_distance])
           (SizeT.add (total_distance (tour st)) min_distance) in
  cities' <- erase (cities st) nearest_it ;;
  Returned (mkLocals cities' nearest tour').

(** Lines 167-192: [while (!cities.empty())], at most [fuel]
    iterations. *)
Fixpoint while_loop (fuel : nat) (st : locals) {struct fuel} : outcome locals :=
  match cities st with
  | [] => Returned st
  | _ :: _ =>
      match fuel with
      | O => OutOfFuel
      | S fuel' => st' <- loop_body st ;; while_loop fuel' st'
      end
  end.

(** Lines 194-200: close the tour. *)
Definition close_tour (st : locals) : outcome Tour :=
  start <- front (path (tour st)) ;;
  let return_distance := distance (current st) start in
  Returned (mkTour (path (tour st) ++ [start])
                   (weights (tour st) ++ [return_distance])
                   (SizeT.add (total_distance (tour st)) return_distance)).

(** The body of [nearestNeighbor] run on its parameter object [cs]: the
    tour returned, and the parameter object as the body leaves it.  Every
    iteration of the loop erases one city, so [length cs] iterations are
    granted. *)
Definition nearestNeighbor_body (cs : list Node) (start_id : N)
  : outcome (Tour * list Node) :=
  let start_it := find_start cs start_id in
  cur <- deref cs start_it ;;
  cs' <- erase cs start_it ;;
  let t := mkTour [cur] [0] 0 in
  st <- while_loop (length cs') (mkLocals cs' cur t) ;;
  t' <- close_tour st ;;
  Returned (t', cities st).

Definition nearestNeighbor (cs : list Node) (start_id : N) : outcome Tour :=
  r <- nearestNeighbor_body cs start_id ;; Returned (fst r).

End NearestNeighbor.

(** ** The parameter of nearestNeighbor

    [nearestNeighbor] takes [std::list<Node> cities] by value.  To follow
    what a call does to the lists of its caller, the lists are objects in
    a memory, and the body works on the object its parameter names. *)

(** The [std::list<Node>] objects of the program, by address: what each
    address holds, and the first address not in use. *)
Record memory : Type := mkMemory {
  objects : nat -> list Node;
  unused : nat
}.

(** The object at [a] takes the value [l]. *)
Definition store (m : memory) (a : nat) (l : list Node) : memory :=
  mkMemory (fun q => if Nat.eqb q a then l else objects m q) (unused m).

(** A parameter passed by value: a new object, at the first address not in
    use, copy-constructed from the argument at [a]. *)
Definition copy_construct (m : memory) (a : nat) : memory * nat :=
  (mkMemory (fun q => if Nat.eqb q (unused m) then objects m a else objects m q)
            (S (unused m)),
   unused m).

(** The parameter object is destroyed at return: its address is free
    again. *)
Definition destroy (m : memory) (p : nat) : memory :=
  mkMemory (objects m) p.

(** The memory and the other locals of the [while] loop. *)
Record frame : Type := mkFrame {
  heap : memory;
  cur : Node;
  built : Tour
}.

Section NearestNeighborInMemory.

Variable distance : Node -> Node -> N.

(** The address of the parameter object [cities]. *)
Variable param : nat.

(** Lines 169-191, every use of [cities] being a read of the object at
    [param] and [cities.erase] a write to it. *)
Definition loop_body_at (fr : frame) : outcome frame :=
  sel <- find_nearest distance (cur fr) (objects (heap fr) param) ;;
  let '(min_distance, nearest_it) := sel in
  nearest <- deref (objects (heap fr) param) nearest_it ;;
  let tour' :=
    mkTour (path (built fr) ++ [nearest])
           (weights (built fr) ++ [min_distance])
           (SizeT.add (total_distance (built fr)) min_distance) in
  erased <- erase (objects (heap fr) param) nearest_it ;;
  Returned (mkFrame (store (heap fr) param erased) nearest tour').

(** Lines 167-192. *)
Fixpoint while_loop_at (fuel : nat) (fr : frame) {struct fuel} : outcome frame :=
  match objects (heap fr) param with
  | [] => Returned fr
  | _ :: _ =>
      match fuel with
      | O => OutOfFuel
      | S fuel' => fr' <- loop_body_at fr ;; while_loop_at fuel' fr'
      end
  end.

(** Lines 146-200 on the memory [m]: the tour returned, and the memory as
    the body leaves it. *)
Definition nearestNeighbor_at (m : memory) (start_id : N)
  : outcome (Tour * memory) :=
  let start_it := find_start (objects m param) start_id in
  c <- deref (objects m param) start_it ;;
  erased <- erase (objects m param) start_it ;;
  let m1 := store m param erased in
  fr <- while_loop_at (length erased) (mkFrame m1 c (mkTour [c] [0] 0)) ;;
  t <- close_tour distance (mkLocals (objects (heap fr) param) (cur fr) (built fr)) ;;
  Returned (t, heap fr).

End NearestNeighborInMemory.

(** A call [nearestNeighbor(arg, start_id)], [arg] being the caller's list
    at the address [arg]: the parameter object is copy-constructed, the
    body runs on it, and it is destroyed at return.  The outcome is the
    tour and the memory after the call. *)
Definition call_nearestNeighbor (distance : Node -> Node -> N)
           (m : memory) (arg : nat) (start_id : N) : outcome (Tour * memory) :=
  let (m1, param) := copy_construct m arg in
  r <- nearestNeighbor_at distance param m1 start_id ;;
  Returned (fst r, destroy (snd r) param).

(** ** TSP::Tour::display *)

Definition endl : string := String (ascii_of_nat 10) EmptyString.

(** [std::cout << n] for a [size_t]: its decimal digits. *)
Definition show (n : N) : string := NilZero.string_of_uint (N.to_uint n).

Definition edge_line (a b : Node) (w : N) : string :=
  ("EDGE " ++ show (id a) ++ " -> " ++ show (id b) ++ " | WEIGHT : " ++ show w)%string.

Definition total_line (total : N) : string :=
  ("TOTAL DISTANCE: " ++ show total)%string.

(** Lines 8-10: the [for] loop from index [i], [out] being what has been
    written to [std::cout] so far; [operator[]] out of range is
    undefined. *)
Fixpoint display_loop (fuel : nat) (t : Tour) (i : nat) (out : string)
  : outcome string :=
  if Nat.ltb i (length (path t)) then
    match fuel with
    | O => OutOfFuel
    | S fuel' =>
        a <- deref (path t) (i - 1) ;;
        b <- deref (path t) i ;;
        w <- deref (weights t) i ;;
        display_loop fuel' t (S i) (out ++ edge_line a b w ++ endl)%string
    end
  else Returned out.

(** Lines 7-12: everything [display] writes to [std::cout]. *)
Definition display (t : Tour) : outcome string :=
  out <- display_loop (length (path t)) t 1 EmptyString ;;
  Returned (out ++ total_line (total_distance t) ++ endl)%string.

(** ** TSP::constructCities *)

(** An input file stream: the characters not read yet, and its state
    bits. *)
Record istream : Type := mkIstream {
  unread : string;
  eofbit : bool;
  failbit : bool
}.

Definition good (fin : istream) : bool :=
  negb (eofbit fin) && negb (failbit fin).

Definition newline : ascii := ascii_of_nat 10.

(** [std::ifstream fin(filename)], the file system giving the text of a
    file, or nothing when it cannot be opened, which sets [failbit]. *)
Definition open (fs : string -> option string) (filename : string) : istream :=
  match fs filename with
  | Some text => mkIstream text false false
  | None => mkIstream EmptyString false true
  end.

(** The characters up to the first newline, and what follows that newline;
    nothing follows when the text ends first. *)
Fixpoint read_line (s : string) : string * option string :=
  match s with
  | EmptyString => (EmptyString, None)
  | String c s' =>
      if Ascii.eqb c newline then (EmptyString, Some s')
      else let (l, rest) := read_line s' in (String c l, rest)
  end.

(** [std::getline(fin, line)].  On a stream that is not good it sets
    [failbit] and leaves [line] alone.  Otherwise [line] is erased and
    takes the characters up to the newline, which is extracted too; at the
    end of the text [eofbit] is set, and [failbit] as well when not one
    character could be extracted. *)
Definition getline (fin : istream) (line : string) : istream * string :=
  if good fin then
    match read_line (unread fin) with
    | (l, Some rest) => (mkIstream rest false false, l)
    | (l, None) =>
        (mkIstream EmptyString true
                   (match l with EmptyString => true | _ => false end), l)
    end
  else (mkIstream (unread fin) (eofbit fin) true, line).

(** [std::string::npos] and [s.find(pat)]: the position of the first
    occurrence of [pat] in [s], [npos] when there is none. *)
Definition npos : N := SizeT.modulus - 1.

Definition find (s pat : string) : N :=
  match index 0 pat s with
  | Some i => N.of_nat i
  | None => npos
  end.

Definition marker : string := "NODE_COORD_SECTION".

(** Lines 32-34: [do { std::getline(fin, line); } while
    (line.find("NODE_COORD_SECTION"));], the condition being true for every
    position but 0. *)
Fixpoint skip_header (fuel : nat) (fin : istream) (line : string)
  : outcome (istream * string) :=
  match fuel with
  | O => OutOfFuel
  | S fuel' =>
      let (fin', line') := getline fin line in
      if find line' marker =? 0 then Returned (fin', line')
      else skip_header fuel' fin' line'
  end.

(** How a call completes: with a value, or by throwing
    [std::runtime_error(what)]. *)
Inductive completion (A : Type) : Type :=
| Normal (a : A)
| Throw (what : string).

Arguments Normal {A} a.
Arguments Throw {A} what.

Section ConstructCities.

(** The formatted extractions [fin >> ID] and [fin >> x] of the standard
    library, from the stream and the variable's value before to the stream
    and its value after. *)
Variable extract_size_t : istream -> N -> istream * N.
Variable extract_double : istream -> spec_float -> istream * spec_float.

(** Lines 40-43: [while (!fin.eof())], reading one record [ID x y] per
    iteration and leaving the loop when the extractions have failed. *)
Fixpoint read_cities (fuel : nat) (fin : istream) (ID : N) (x y : spec_float)
         (cities : list Node) : outcome (list Node) :=
  if eofbit fin then Returned cities
  else
    match fuel with
    | O => OutOfFuel
    | S fuel' =>
        let (fin1, ID') := extract_size_t fin ID in
        let (fin2, x') := extract_double fin1 x in
        let (fin3, y') := extract_double fin2 y in
        if failbit fin3 then Returned cities
        else read_cities fuel' fin3 ID' x' y' (cities ++ [mkNode ID' x' y'])
    end.

(** Lines 24-45.  [ID0], [x0] and [y0] are whatever the uninitialised
    variables [ID], [x] and [y] hold.  The outcome is what was written to
    [std::cerr] and how the call completes. *)
Definition constructCities (fs : string -> option string) (ID0 : N)
           (x0 y0 : spec_float) (fuel : nat) (filename : string)
  : outcome (string * completion (list Node)) :=
  let fin := open fs filename in
  if failbit fin then
    Returned (("ERROR: Could not read file: " ++ filename ++ endl)%string,
              Throw "Failed to read file. Terminating.")
  else
    hdr <- skip_header fuel fin EmptyString ;;
    cities <- read_cities fuel (fst hdr) ID0 x0 y0 [] ;;
    Returned (EmptyString, Normal cities).

End ConstructCities.

(** * Specification vocabulary *)

(** The sum of a vector of [size_t] as a natural number, nothing wrapped. *)
Definition exact_sum (l : list N) : N := fold_right N.add 0 l.

Section TourSpec.

Variable distance : Node -> Node -> N.

(** The weights that belong to a path: [0] for its first point, then the
    distance of every leg. *)
Fixpoint legs (a : Node) (rest : list Node) : list N :=
  match rest with
  | [] => []
  | b :: rest' => distance a b :: legs b rest'
  end.

Definition weights_of (p : list Node) : list N :=
  match p with
  | [] => []
  | a :: rest => 0 :: legs a rest
  end.

(** [c], at position [i] of [cs], is the first of the cities of [cs]
    nearest to [cur]: no city is nearer, and every city before it is
    strictly farther. *)
Definition first_nearest (cur : Node) (cs : list Node) (i : nat) (c : Node) : Prop :=
  nth_error cs i = Some c
  /\ (forall c', In c' cs -> distance cur c <= distance cur c')
  /\ (forall j c', (j < i)%nat -> nth_error cs j = Some c' ->
                   distance cur c < distance cur c').

(** What holds of the locals before and after every iteration, [all]
    being the cities passed in and [start] the city the tour starts
    from. *)
Record tour_invariant (all : list Node) (start : Node) (st : locals) : Prop := {
  inv_perm : Permutation (path (tour st) ++ cities st) all;
  inv_front : exists rest,
      path (tour st) = start :: rest /\ current st = last rest start;
  inv_weights : weights (tour st) = weights_of (path (tour st));
  inv_total : total_distance (tour st) = SizeT.sum (weights (tour st))
}.

(** The tour that goes through [p] and back to its first point. *)
Definition closed_tour (p : list Node) : Tour :=
  let p' := p ++ firstn 1 p in
  mkTour p' (weights_of p') (SizeT.sum (weights_of p')).

End TourSpec.

(** The edges of a tour: every consecutive pair of its path with the
    weight at the second point's index. *)
Fixpoint pairs_from (a : Node) (rest : list Node) (ws : list N)
  : list (Node * Node * N) :=
  match rest, ws with
  | b :: rest', w :: ws' => (a, b, w) :: pairs_from b rest' ws'
  | _, _ => []
  end.

Definition edges (t : Tour) : list (Node * Node * N) :=
  match path t with
  | [] => []
  | a :: rest => pairs_from a rest (tl (weights t))
  end.

(** The lines of the report, each ended by a newline. *)
Fixpoint unlines (ls : list string) : string :=
  match ls with
  | [] => EmptyString
  | l :: ls' => (l ++ endl ++ unlines ls')%string
  end.

(** A text that holds no newline. *)
Fixpoint single_line (s : string) : bool :=
  match s with
  | EmptyString => true
  | String c s' => negb (Ascii.eqb c (ascii_of_nat 10)) && single_line s'
  end.

Definition edge_text (e : Node * Node * N) : string :=
  edge_line (fst (fst e)) (snd (fst e)) (snd e).

Definition report_lines (t : Tour) : list string :=
  map edge_text (edges t) ++ [total_line (total_distance t)].

(** ** Vocabulary of the further results *)

(** [u] stands before [v] in [l]. *)
Definition precedes {A : Type} (l : list A) (u v : A) : Prop :=
  exists i j, (i < j)%nat /\ nth_error l i = Some u /\ nth_error l j = Some v.

Section TourOrder.

Variable distance : Node -> Node -> N.
Variable all : list Node.

(** Every leg of the path is no longer than the way from its first point
    to any point that comes later in the path or is still unvisited. *)
Definition nearest_first (p later : list Node) : Prop :=
  forall i a b c,
    nth_error p i = Some a ->
    nth_error p (S i) = Some b ->
    (In c later \/ exists j, (S i < j)%nat /\ nth_error p j = Some c) ->
    distance a b <= distance a c.

(** The working list keeps the order of the cities passed in, and of two
    cities equally near the one they were compared from, the one visited
    next stands before the other in the list passed in. *)
Definition ties_in_order (p later : list Node) : Prop :=
  (forall u v, precedes later u v -> precedes all u v)
  /\ (forall i a b x,
         nth_error p i = Some a ->
         nth_error p (S i) = Some b ->
         (In x later \/ exists j, (S i < j)%nat /\ nth_error p j = Some x) ->
         distance a b = distance a x ->
         precedes all b x).

End TourOrder.

(** The number of newline characters of a text. *)
Fixpoint newlines (s : string) : nat :=
  match s with
  | EmptyString => 0%nat
  | String c s' =>
      ((if Ascii.eqb c (ascii_of_nat 10) then 1 else 0) + newlines s')%nat
  end.

(** The lines of a text: what stands between its newlines. *)
Fixpoint lines_of (s : string) : list string :=
  match s with
  | EmptyString => [EmptyString]
  | String c s' =>
      if Ascii.eqb c newline then EmptyString :: lines_of s'
      else match lines_of s' with
           | l :: ls => String c l :: ls
           | [] => [String c EmptyString]
           end
  end.

(** The line begins with the marker of the coordinate section. *)
Definition starts_section (line : string) : bool := prefix marker line.

(** An extraction to run examples with.  It is not the library's
    [operator>>], which no result below depends on: it serves records
    written as small unsigned decimal integers separated by blanks and
    newlines, on which the two agree.  Blanks and newlines are skipped, then
    the digits are read; [failbit] is set when there is no digit, [eofbit]
    when the text ends.  Tabs, signs, decimal points, exponents and
    overflow are not handled. *)
Definition is_blank (c : ascii) : bool :=
  Ascii.eqb c " " || Ascii.eqb c newline.

Fixpoint skip_blanks (s : string) : string :=
  match s with
  | EmptyString => EmptyString
  | String c s' => if is_blank c then skip_blanks s' else s
  end.

Definition digit_of (c : ascii) : option N :=
  let n := N_of_ascii c in
  if (48 <=? n) && (n <=? 57) then Some (n - 48) else None.

Fixpoint read_digits (s : string) (acc : option N) : option N * string * bool :=
  match s with
  | EmptyString => (acc, EmptyString, true)
  | String c s' =>
      match digit_of c with
      | Some d =>
          read_digits s' (Some (10 * match acc with Some a => a | None => 0 end + d))
      | None => (acc, s, false)
      end
  end.

Definition extract_unsigned {A : Type} (of_N : N -> A) (fin : istream) (old : A)
  : istream * A :=
  if good fin then
    match read_digits (skip_blanks (unread fin)) None with
    | (Some n, rest, ended) => (mkIstream rest ended false, of_N n)
    | (None, rest, ended) => (mkIstream rest ended true, old)
    end
  else (mkIstream (unread fin) (eofbit fin) true, old).

(** ** Points and signs *)

(** The city 2 at (0.5, 0). *)
Definition pt_half : Node :=
  mkNode 2 (S754_finite false 4503599627370496 (-53)) (S754_zero false).

(** A point: a node whose two coordinates are finite doubles, as the
    extraction [fin >> x >> y] delivers them. *)
Definition finite_point (a : Node) : bool :=
  Double.is_finite (x a) && Double.is_finite (y a).

Definition is_nan (f : spec_float) : bool :=
  match f with S754_nan => true | _ => false end.

(** [f] is a zero, a finite double or an infinity of sign [s]. *)
Definition has_sign (s : bool) (f : spec_float) : bool :=
  match f with
  | S754_zero s' | S754_infinity s' | S754_finite s' _ _ => Bool.eqb s' s
  | S754_nan => false
  end.

(** * Properties *)

(** ** The distance *)

Module DoubleFacts.

Import Double.

Lemma binary_round_aux_negb (s : bool) (m e : Z) (l : location) :
  binary_round_aux prec emax (negb s) m e l
  = SFopp (binary_round_aux prec emax s m e l).
Proof.
  unfold binary_round_aux.
  destruct (shr_fexp prec emax m e l) as [mrs e1].
  destruct (shr_fexp prec emax _ e1 loc_Exact) as [mrs' e2].
  destruct (shr_m mrs') as [|p|p]; try reflexivity.
  destruct (Z.leb e2 (emax - prec)); reflexivity.
Qed.

Lemma binary_round_negb (s : bool) (m : positive) (e : Z) :
  binary_round prec emax (negb s) m e = SFopp (binary_round prec emax s m e).
Proof.
  unfold binary_round.
  destruct (shl_align m e _) as [mz ez].
  apply binary_round_aux_negb.
Qed.

(** Normalising [-z] gives the opposite double, or [+0] both ways. *)
Lemma binary_normalize_opp (z e : Z) :
  binary_normalize prec emax (- z) e false
  = match z with
    | Z0 => S754_zero false
    | _ => SFopp (binary_normalize prec emax z e false)
    end.
Proof.
  destruct z as [|p|p]; cbn [Z.opp binary_normalize]; try reflexivity.
  - apply (binary_round_negb false).
  - apply (binary_round_negb true).
Qed.

(** The two differences [u - v] and [v - u] are opposite doubles, or
    both are [+0]. *)
Lemma sub_swap (u v : spec_float) :
  sub v u = SFopp (sub u v)
  \/ (sub u v = S754_zero false /\ sub v u = S754_zero false).
Proof.
  unfold sub.
  destruct u as [su|su| |su mu eu], v as [sv|sv| |sv mv ev];
    try (left; reflexivity);
    try (destruct su, sv; cbn; auto; fail);
    try (destruct su; cbn; auto; fail);
    try (destruct sv; cbn; auto; fail).
  cbn [SFsub]. rewrite (Z.min_comm ev eu).
  set (ez := Z.min eu ev).
  set (zu := cond_Zopp su (Zpos (fst (shl_align mu eu ez)))).
  set (zv := cond_Zopp sv (Zpos (fst (shl_align mv ev ez)))).
  replace (zv - zu)%Z with (- (zu - zv))%Z by lia.
  rewrite binary_normalize_opp.
  destruct (zu - zv)%Z; auto.
Qed.

Lemma mul_opp_opp (d : spec_float) : mul (SFopp d) (SFopp d) = mul d d.
Proof. destruct d as [[]|[]| |[] ? ?]; reflexivity. Qed.

Lemma square_sub_swap (u v : spec_float) :
  mul (sub u v) (sub u v) = mul (sub v u) (sub v u).
Proof.
  destruct (sub_swap u v) as [E | [E1 E2]].
  - rewrite E, mul_opp_opp. reflexivity.
  - rewrite E1, E2. reflexivity.
Qed.

Lemma sub_diag (u : spec_float) :
  is_finite u = true -> sub u u = S754_zero false.
Proof.
  destruct u as [[]|[]| |s m e]; cbn; try discriminate; try reflexivity.
  intros _. unfold sub. cbn [SFsub]. rewrite Z.sub_diag. reflexivity.
Qed.

(** A square root is never below zero. *)
Lemma sqrt_not_negative (u : spec_float) :
  SFltb (sqrt u) (S754_zero false) = false.
Proof.
  destruct u as [s|[]| |[] m e]; try reflexivity.
  unfold sqrt. cbn [SFsqrt].
  destruct (SFsqrt_core_binary prec emax (Zpos m) e) as [[mz ez] lz].
  unfold binary_round_aux.
  destruct (shr_fexp prec emax mz ez lz) as [mrs e1].
  destruct (shr_fexp prec emax _ e1 loc_Exact) as [mrs' e2].
  destruct (shr_m mrs') as [|p|p]; try reflexivity.
  destruct (Z.leb e2 (emax - prec)); reflexivity.
Qed.

End DoubleFacts.

(** ** Signs of the doubles on the way to a distance *)

Module DoubleSign.

Import Double.

Lemma iter_pos_invariant {A : Type} (P : A -> Prop) (f : A -> A) :
  (forall a, P a -> P (f a)) ->
  forall p a, P a -> P (iter_pos f p a).
Proof.
  intros Hf. induction p as [p IH|p IH|]; intros a Ha; cbn [iter_pos]; auto.
Qed.

Lemma shr_1_nonneg (mrs : shr_record) :
  (0 <= shr_m mrs)%Z -> (0 <= shr_m (shr_1 mrs))%Z.
Proof.
  destruct mrs as [m r s]. cbn [shr_m]. intros H.
  destruct m as [|[p|p|]|p]; cbn; lia.
Qed.

Lemma shr_fexp_nonneg (m e : Z) (l : location) :
  (0 <= m)%Z -> (0 <= shr_m (fst (shr_fexp prec emax m e l)))%Z.
Proof.
  intros H. unfold shr_fexp, shr.
  assert (H0 : (0 <= shr_m (shr_record_of_loc m l))%Z)
    by (destruct l as [|[]]; exact H).
  destruct (fexp prec emax (Zdigits2 m + e) - e)%Z as [|p|p]; cbn [fst];
    try exact H0.
  apply (iter_pos_invariant (fun mrs => (0 <= shr_m mrs)%Z) shr_1 shr_1_nonneg).
  exact H0.
Qed.

Lemma round_nearest_even_nonneg (m : Z) (l : location) :
  (0 <= m)%Z -> (0 <= round_nearest_even m l)%Z.
Proof.
  intros H. unfold round_nearest_even.
  destruct l as [|[]]; try destruct (Z.even m); lia.
Qed.

(** Rounding a mantissa that is not negative gives a double of the sign
    asked for, never NaN. *)
Lemma binary_round_aux_sign (s : bool) (m e : Z) (l : location) :
  (0 <= m)%Z -> has_sign s (binary_round_aux prec emax s m e l) = true.
Proof.
  intros H. unfold binary_round_aux.
  pose proof (shr_fexp_nonneg m e l H) as H1.
  destruct (shr_fexp prec emax m e l) as [mrs e1]. cbn [fst] in H1.
  pose proof (shr_fexp_nonneg _ e1 loc_Exact
                (round_nearest_even_nonneg _ (loc_of_shr_record mrs) H1)) as H2.
  destruct (shr_fexp prec emax _ e1 loc_Exact) as [mrs' e2]. cbn [fst] in H2.
  destruct (shr_m mrs') as [|p|p]; [| |lia].
  - cbn. apply eqb_reflx.
  - destruct (Z.leb e2 (emax - prec)); cbn; apply eqb_reflx.
Qed.

Lemma binary_round_sign (s : bool) (m : positive) (e : Z) :
  has_sign s (binary_round prec emax s m e) = true.
Proof.
  unfold binary_round. destruct (shl_align m e _) as [mz ez].
  apply binary_round_aux_sign. lia.
Qed.

Lemma binary_normalize_not_nan (z e : Z) :
  is_nan (binary_normalize prec emax z e false) = false.
Proof.
  destruct z as [|p|p]; cbn [binary_normalize]; [reflexivity| |].
  - pose proof (binary_round_sign false p e) as H.
    destruct (binary_round prec emax false p e); try reflexivity; discriminate.
  - pose proof (binary_round_sign true p e) as H.
    destruct (binary_round prec emax true p e); try reflexivity; discriminate.
Qed.

(** The difference of two finite doubles is a double or an infinity. *)
Lemma sub_finite_not_nan (u v : spec_float) :
  is_finite u = true -> is_finite v = true -> is_nan (sub u v) = false.
Proof.
  unfold sub.
  destruct u as [su|su| |su mu eu], v as [sv|sv| |sv mv ev];
    try discriminate; intros _ _; try reflexivity.
  - destruct su, sv; reflexivity.
  - cbn [SFsub]. apply binary_normalize_not_nan.
Qed.

(** A square is not negative. *)
Lemma mul_self_sign (d : spec_float) :
  is_nan d = false -> has_sign false (mul d d) = true.
Proof.
  destruct d as [[]|[]| |s m e]; try discriminate; intros _; try reflexivity.
  unfold mul. cbn [SFmul]. rewrite xorb_nilpotent.
  apply binary_round_aux_sign. lia.
Qed.

Lemma add_sign (u v : spec_float) :
  has_sign false u = true -> has_sign false v = true ->
  has_sign false (add u v) = true.
Proof.
  destruct u as [[]|[]| |[] mu eu], v as [[]|[]| |[] mv ev];
    try discriminate; intros _ _; try reflexivity.
  unfold add. cbn [SFadd cond_Zopp].
  destruct (shl_align mu eu (Z.min eu ev)) as [au ?].
  destruct (shl_align mv ev (Z.min eu ev)) as [av ?]. cbn [fst].
  cbn [Z.add binary_normalize]. apply binary_round_sign.
Qed.

Lemma sqrt_sign (u : spec_float) :
  has_sign false u = true -> has_sign false (sqrt u) = true.
Proof.
  destruct u as [[]|[]| |[] m e]; try discriminate; intros _; try reflexivity.
  unfold sqrt. cbn [SFsqrt].
  destruct (SFsqrt_core_binary prec emax (Zpos m) e) as [[mz ez] lz] eqn:E.
  apply binary_round_aux_sign.
  unfold SFsqrt_core_binary in E.
  match type of E with context [Z.sqrtrem ?n] =>
    pose proof (Z.sqrtrem_sqrt n) as Hq; pose proof (Z.sqrt_nonneg n) as Hn;
    destruct (Z.sqrtrem n) as [q r] end.
  cbn [fst] in Hq. injection E as <- _ _. lia.
Qed.

Lemma has_sign_nonnegative (u : spec_float) :
  has_sign false u = true -> SFleb (S754_zero false) u = true.
Proof.
  destruct u as [[]|[]| |[] m e]; try discriminate; intros _; reflexivity.
Qed.

End DoubleSign.

(** ** Iterators *)

Lemma deref_at {A : Type} (l1 l2 : list A) (c : A) :
  deref (l1 ++ c :: l2) (length l1) = Returned c.
Proof.
  unfold deref. rewrite nth_error_app2, Nat.sub_diag by lia. reflexivity.
Qed.

Lemma erase_at {A : Type} (l1 l2 : list A) (c : A) :
  erase (l1 ++ c :: l2) (length l1) = Returned (l1 ++ l2).
Proof.
  unfold erase. rewrite nth_error_app2, Nat.sub_diag by lia. cbn [nth_error].
  rewrite firstn_app, firstn_all, Nat.sub_diag, skipn_app.
  rewrite skipn_all2 by lia.
  replace (S (length l1) - length l1)%nat with 1%nat by lia.
  cbn. rewrite app_nil_r. reflexivity.
Qed.

Lemma find_start_absent (cs : list Node) (s : N) :
  ~ In s (map id cs) -> find_start cs s = length cs.
Proof.
  induction cs as [|c cs IH]; cbn; intros H; [reflexivity|].
  destruct (N.eqb_spec (id c) s) as [E|E]; [tauto|].
  f_equal. apply IH. tauto.
Qed.

Lemma find_start_present (cs : list Node) (s : N) :
  In s (map id cs) ->
  exists c, nth_error cs (find_start cs s) = Some c /\ id c = s.
Proof.
  induction cs as [|c cs IH]; cbn; intros H; [tauto|].
  destruct (N.eqb_spec (id c) s) as [E|E].
  - exists c. split; [reflexivity | exact E].
  - apply IH. tauto.
Qed.

Lemma last_cons_default {A : Type} (x d d' : A) (l : list A) :
  last (x :: l) d = last (x :: l) d'.
Proof.
  revert x. induction l as [|y l IH]; intros x; [reflexivity|].
  change (last (y :: l) d = last (y :: l) d'). apply IH.
Qed.

Lemma last_In {A : Type} (l : list A) (d : A) : l <> [] -> In (last l d) l.
Proof.
  intros Hne. rewrite (app_removelast_last d Hne) at 2. apply in_elt.
Qed.

Lemma list_eq_dec_nil {A : Type} (l : list A) : {l = []} + {l <> []}.
Proof. destruct l; [left; reflexivity | right; discriminate]. Qed.

(** ** Unsigned sums *)

Lemma SizeT_sum_from (l : list N) (acc : N) :
  fold_left SizeT.add l (acc mod SizeT.modulus)
  = (acc + exact_sum l) mod SizeT.modulus.
Proof.
  revert acc. induction l as [|w l IH]; intros acc; cbn [fold_left exact_sum fold_right].
  - rewrite N.add_0_r. reflexivity.
  - unfold SizeT.add at 2.
    rewrite N.Div0.add_mod_idemp_l, IH, N.add_assoc. reflexivity.
Qed.

Lemma SizeT_sum_exact (l : list N) :
  SizeT.sum l = exact_sum l mod SizeT.modulus.
Proof.
  unfold SizeT.sum. change 0 with (0 mod SizeT.modulus) at 1.
  rewrite SizeT_sum_from. reflexivity.
Qed.

Lemma SizeT_sum_snoc (l : list N) (w : N) :
  SizeT.sum (l ++ [w]) = SizeT.add (SizeT.sum l) w.
Proof. unfold SizeT.sum. rewrite fold_left_app. reflexivity. Qed.

(** ** The tour builder *)

Section BuilderFacts.

Variable distance : Node -> Node -> N.

Lemma legs_snoc (a c : Node) (rest : list Node) :
  legs distance a (rest ++ [c]) = legs distance a rest ++ [distance (last rest a) c].
Proof.
  revert a. induction rest as [|b rest IH]; intros a; [reflexivity|].
  cbn [app legs]. rewrite IH. destruct rest as [|b' rest]; [reflexivity|].
  change (last (b :: b' :: rest) a) with (last (b' :: rest) a).
  rewrite (last_cons_default b' a b). reflexivity.
Qed.

Lemma weights_of_snoc (a c : Node) (rest : list Node) :
  weights_of distance ((a :: rest) ++ [c])
  = weights_of distance (a :: rest) ++ [distance (last rest a) c].
Proof. cbn [app weights_of]. rewrite legs_snoc. reflexivity. Qed.

Lemma length_legs (a : Node) (rest : list Node) :
  length (legs distance a rest) = length rest.
Proof.
  revert a. induction rest as [|b rest IH]; intros a; cbn; [|rewrite IH]; reflexivity.
Qed.

Lemma length_weights_of (p : list Node) : length (weights_of distance p) = length p.
Proof. destruct p; cbn; [|rewrite length_legs]; reflexivity. Qed.

Lemma nth_error_legs (a u v : Node) (rest : list Node) (i : nat) :
  nth_error (a :: rest) i = Some u ->
  nth_error rest i = Some v ->
  nth_error (legs distance a rest) i = Some (distance u v).
Proof.
  revert a i. induction rest as [|b rest IH]; intros a i Hu Hv.
  - destruct i; discriminate.
  - destruct i as [|i]; cbn in *.
    + congruence.
    + apply IH; assumption.
Qed.

Lemma scan_first_nearest (cur : Node) (rest pre : list Node) (n : nat) (c : Node) :
  first_nearest distance cur pre n c ->
  exists c',
    scan distance cur rest (length pre) (distance cur c) n
    = (distance cur c', snd (scan distance cur rest (length pre) (distance cur c) n))
    /\ first_nearest distance cur (pre ++ rest)
         (snd (scan distance cur rest (length pre) (distance cur c) n)) c'.
Proof.
  revert pre n c. induction rest as [|r rest IH]; intros pre n c (Hn & Hmin & Hfirst).
  - exists c. rewrite app_nil_r. cbn. repeat split; assumption.
  - cbn [scan]. cbv zeta.
    replace (pre ++ r :: rest) with ((pre ++ [r]) ++ rest)
      by (rewrite <- app_assoc; reflexivity).
    replace (S (length pre)) with (length (pre ++ [r]))
      by (rewrite length_app; cbn; lia).
    assert (Hlen : (n < length pre)%nat) by (apply nth_error_Some; congruence).
    destruct (N.ltb_spec (distance cur r) (distance cur c)) as [Hlt|Hge].
    + apply (IH (pre ++ [r]) (length pre) r). repeat split.
      * rewrite nth_error_app2, Nat.sub_diag by lia. reflexivity.
      * intros c' Hin. apply in_app_or in Hin. destruct Hin as [Hin|[<-|[]]].
        -- specialize (Hmin c' Hin). lia.
        -- lia.
      * intros j c' Hj Hc'.
        rewrite nth_error_app1 in Hc' by assumption.
        apply nth_error_In in Hc'. specialize (Hmin c' Hc'). lia.
    + apply (IH (pre ++ [r]) n c). repeat split.
      * rewrite nth_error_app1 by assumption. assumption.
      * intros c' Hin. apply in_app_or in Hin. destruct Hin as [Hin|[<-|[]]].
        -- apply Hmin, Hin.
        -- assumption.
      * intros j c' Hj Hc'.
        rewrite nth_error_app1 in Hc' by lia.
        apply (Hfirst j c' Hj Hc').
Qed.

Lemma first_nearest_singleton (cur c : Node) : first_nearest distance cur [c] 0 c.
Proof.
  repeat split.
  - intros c' [<-|[]]. apply N.le_refl.
  - intros j c' Hj. inversion Hj.
Qed.

(** One iteration on a non-empty list moves the first nearest city
    from [cities] to the end of the tour. *)
Lemma loop_body_returns (st : locals) :
  cities st <> [] ->
  exists c l1 l2,
    cities st = l1 ++ c :: l2
    /\ first_nearest distance (current st) (cities st) (length l1) c
    /\ loop_body distance st
       = Returned
           (mkLocals (l1 ++ l2) c
              (mkTour (path (tour st) ++ [c])
                 (weights (tour st) ++ [distance (current st) c])
                 (SizeT.add (total_distance (tour st))
                    (distance (current st) c)))).
Proof.
  intros Hne. unfold loop_body, find_nearest.
  destruct (cities st) as [|c0 rest] eqn:Hcs; [congruence|].
  cbn [deref nth_error bind tl].
  destruct (scan_first_nearest (current st) rest [c0] 0 c0
              (first_nearest_singleton (current st) c0)) as (c & E & Hfn).
  cbn [length app] in E, Hfn. rewrite E.
  set (i := snd (scan distance (current st) rest 1 (distance (current st) c0) 0)) in *.
  destruct (nth_error_split _ _ (proj1 Hfn)) as (l1 & l2 & Hsplit & Hlen).
  exists c, l1, l2. rewrite Hlen. split; [assumption|]. split; [assumption|].
  rewrite Hsplit, <- Hlen, deref_at. cbn [bind]. rewrite erase_at. reflexivity.
Qed.

Lemma loop_body_invariant (all : list Node) (start : Node) (st st' : locals) :
  tour_invariant distance all start st ->
  loop_body distance st = Returned st' ->
  tour_invariant distance all start st' /\ length (cities st) = S (length (cities st')).
Proof.
  intros [Hperm (rest & Hpath & Hcur) Hw Ht] Hbody.
  destruct (list_eq_dec_nil (cities st)) as [Hnil|Hne].
  { unfold loop_body, find_nearest in Hbody. rewrite Hnil in Hbody. discriminate. }
  destruct (loop_body_returns st Hne) as (c & l1 & l2 & Hcs & _ & E).
  rewrite E in Hbody. injection Hbody as <-. cbn [cities current tour path weights total_distance].
  split; [constructor; cbn [cities current tour path weights total_distance]|].
  - rewrite Hcs in Hperm. rewrite <- Hperm, <- app_assoc.
    apply Permutation_app_head. cbn [app]. apply Permutation_middle.
  - exists (rest ++ [c]). rewrite Hpath, last_last. split; reflexivity.
  - rewrite Hw, Hpath, Hcur. symmetry. apply weights_of_snoc.
  - rewrite SizeT_sum_snoc, Ht. reflexivity.
  - rewrite Hcs, !length_app. cbn [length]. lia.
Qed.

(** The loop ends, within as many iterations as there are cities, on an
    empty list. *)
Lemma while_loop_returns (all : list Node) (start : Node) (fuel : nat) (st : locals) :
  tour_invariant distance all start st ->
  (length (cities st) <= fuel)%nat ->
  exists st',
    while_loop distance fuel st = Returned st'
    /\ tour_invariant distance all start st' /\ cities st' = [].
Proof.
  revert st. induction fuel as [|fuel IH]; intros st Hinv Hfuel.
  - destruct (cities st) eqn:Hcs; [|cbn in Hfuel; lia].
    exists st. cbn. rewrite Hcs. auto.
  - cbn [while_loop]. destruct (cities st) as [|c0 rest] eqn:Hcs.
    + exists st. auto.
    + assert (Hne : cities st <> []) by congruence.
      destruct (loop_body_returns st Hne) as (c & l1 & l2 & _ & _ & E).
      rewrite E. cbn [bind].
      destruct (loop_body_invariant all start st _ Hinv E) as [Hinv' Hlen].
      apply IH; [assumption|]. rewrite Hcs in Hlen. cbn [length] in *. lia.
Qed.

(** The body, once the start city [c] is found between [l1] and [l2]. *)
Lemma nearestNeighbor_body_found (cs l1 l2 : list Node) (c : Node) (start_id : N) :
  cs = l1 ++ c :: l2 ->
  length l1 = find_start cs start_id ->
  nearestNeighbor_body distance cs start_id
  = (st <- while_loop distance (length (l1 ++ l2))
             (mkLocals (l1 ++ l2) c (mkTour [c] [0] 0)) ;;
     t' <- close_tour distance st ;;
     Returned (t', cities st)).
Proof.
  intros Hsplit Hlen. unfold nearestNeighbor_body. cbv zeta.
  rewrite <- Hlen. rewrite Hsplit. rewrite deref_at. cbn [bind].
  rewrite erase_at. reflexivity.
Qed.

Lemma tour_invariant_init (cs l1 l2 : list Node) (c : Node) :
  cs = l1 ++ c :: l2 ->
  tour_invariant distance cs c (mkLocals (l1 ++ l2) c (mkTour [c] [0] 0)).
Proof.
  intros Hsplit. constructor; cbn.
  - rewrite Hsplit. apply Permutation_middle.
  - exists []. split; reflexivity.
  - reflexivity.
  - reflexivity.
Qed.

(** With the start city present, the body returns: the tour goes through
    a rearrangement of the cities that begins with the first city whose
    id is [start_id] and closes on it, its weights and total are those
    that belong to its path, and the parameter object is left empty. *)
Lemma nearestNeighbor_body_returns (cs : list Node) (start_id : N) :
  In start_id (map id cs) ->
  exists start rest,
    id start = start_id
    /\ Permutation (start :: rest) cs
    /\ nearestNeighbor_body distance cs start_id
       = Returned (closed_tour distance (start :: rest), []).
Proof.
  intros Hin.
  destruct (find_start_present cs start_id Hin) as (c & Hnth & Hid).
  destruct (nth_error_split _ _ Hnth) as (l1 & l2 & Hsplit & Hlen).
  destruct (while_loop_returns cs c (length (l1 ++ l2)) _
              (tour_invariant_init cs l1 l2 c Hsplit) (le_n _))
    as (st & E & [Hperm (rest & Hpath & Hcur) Hw Ht] & Hnil).
  exists c, rest. split; [assumption|]. split.
  - rewrite Hpath, Hnil, app_nil_r in Hperm. assumption.
  - rewrite (nearestNeighbor_body_found cs l1 l2 c start_id Hsplit Hlen).
    rewrite E. cbn [bind]. unfold close_tour, front. rewrite Hpath.
    cbn [deref nth_error bind].
    rewrite Hnil. unfold closed_tour. cbn [firstn]. cbv zeta.
    rewrite weights_of_snoc, SizeT_sum_snoc, Ht, Hw, Hcur, Hpath.
    reflexivity.
Qed.

(** Without it, the end iterator is dereferenced. *)
Lemma nearestNeighbor_body_undefined (cs : list Node) (start_id : N) :
  ~ In start_id (map id cs) ->
  nearestNeighbor_body distance cs start_id = Undefined.
Proof.
  intros Hout. unfold nearestNeighbor_body. cbv zeta.
  rewrite (find_start_absent cs start_id Hout). unfold deref.
  rewrite (proj2 (nth_error_None cs (length cs)) (le_n _)). reflexivity.
Qed.

Lemma nearestNeighbor_Returned_inv (cs : list Node) (start_id : N) (t : Tour) :
  nearestNeighbor distance cs start_id = Returned t ->
  exists start rest,
    id start = start_id
    /\ Permutation (start :: rest) cs
    /\ t = closed_tour distance (start :: rest).
Proof.
  intros Hret. unfold nearestNeighbor in Hret.
  destruct (in_dec N.eq_dec start_id (map id cs)) as [Hin|Hout].
  - destruct (nearestNeighbor_body_returns cs start_id Hin)
      as (start & rest & Hid & Hperm & E).
    rewrite E in Hret. cbn in Hret. injection Hret as <-.
    exists start, rest. auto.
  - rewrite (nearestNeighbor_body_undefined cs start_id Hout) in Hret.
    discriminate.
Qed.

End BuilderFacts.

(** ** The report *)

Lemma string_app_assoc (a b c : string) :
  ((a ++ b) ++ c = a ++ (b ++ c))%string.
Proof. induction a as [|ch a IH]; cbn; [|rewrite IH]; reflexivity. Qed.

Lemma string_app_nil_r (a : string) : (a ++ EmptyString = a)%string.
Proof. induction a as [|ch a IH]; cbn; [|rewrite IH]; reflexivity. Qed.

Lemma single_line_app (a b : string) :
  single_line (a ++ b) = single_line a && single_line b.
Proof.
  induction a as [|ch a IH]; cbn; [reflexivity|].
  rewrite IH, andb_assoc. reflexivity.
Qed.

Lemma single_line_show (n : N) : single_line (show n) = true.
Proof.
  unfold show, NilZero.string_of_uint.
  assert (H : forall d, single_line (NilEmpty.string_of_uint d) = true)
    by (induction d; cbn; auto).
  destruct (N.to_uint n); try reflexivity; apply H.
Qed.

Lemma single_line_edge_line (a b : Node) (w : N) :
  single_line (edge_line a b w) = true.
Proof.
  unfold edge_line. rewrite !single_line_app, !single_line_show. reflexivity.
Qed.

Lemma single_line_total_line (total : N) : single_line (total_line total) = true.
Proof.
  unfold total_line. rewrite single_line_app, single_line_show. reflexivity.
Qed.

Lemma report_lines_single_line (t : Tour) :
  forallb single_line (report_lines t) = true.
Proof.
  unfold report_lines. rewrite forallb_app. cbn [forallb].
  rewrite single_line_total_line, andb_true_r. apply forallb_forall.
  intros l Hl. apply in_map_iff in Hl. destruct Hl as (e & <- & _).
  apply single_line_edge_line.
Qed.

Lemma unlines_app (l1 l2 : list string) :
  unlines (l1 ++ l2) = (unlines l1 ++ unlines l2)%string.
Proof.
  induction l1 as [|l l1 IH]; cbn; [reflexivity|].
  rewrite IH, !string_app_assoc. reflexivity.
Qed.


Lemma length_pairs_from (a : Node) (rest : list Node) (ws : list N) :
  (length rest <= length ws)%nat ->
  length (pairs_from a rest ws) = length rest.
Proof.
  revert a ws. induction rest as [|b rest IH]; intros a ws H; [reflexivity|].
  destruct ws as [|w ws]; cbn in *; [lia|]. rewrite IH by lia. reflexivity.
Qed.

(** The loop, entered at the index after [pre], writes the edges still to
    come. *)
Lemma display_loop_writes (t : Tour) (rest pre : list Node) (a : Node)
      (wpre ws : list N) (fuel : nat) (out : string) :
  path t = pre ++ a :: rest ->
  weights t = wpre ++ ws ->
  length wpre = S (length pre) ->
  (length rest <= length ws)%nat ->
  (length rest <= fuel)%nat ->
  display_loop fuel t (S (length pre)) out
  = Returned (out ++ unlines (map edge_text (pairs_from a rest ws)))%string.
Proof.
  revert pre a wpre ws fuel out.
  induction rest as [|b rest IH]; intros pre a wpre ws fuel out Hp Hw Hlen Hws Hfuel.
  - assert (E : Nat.ltb (S (length pre)) (length (path t)) = false).
    { apply Nat.ltb_ge. rewrite Hp, length_app. cbn. lia. }
    destruct fuel; cbn [display_loop]; rewrite E; cbn;
      rewrite string_app_nil_r; reflexivity.
  - destruct ws as [|w ws]; [cbn in Hws; lia|].
    destruct fuel as [|fuel]; [cbn in Hfuel; lia|].
    assert (E : Nat.ltb (S (length pre)) (length (path t)) = true).
    { apply Nat.ltb_lt. rewrite Hp, length_app. cbn. lia. }
    cbn [display_loop]. rewrite E.
    replace (S (length pre) - 1)%nat with (length pre) by lia.
    rewrite Hp at 1. rewrite deref_at. cbn [bind].
    assert (Hp' : path t = (pre ++ [a]) ++ b :: rest)
      by (rewrite <- app_assoc; exact Hp).
    assert (Hl' : length (pre ++ [a]) = S (length pre))
      by (rewrite length_app; cbn; lia).
    rewrite Hp' at 1. rewrite <- Hl', deref_at. cbn [bind].
    rewrite Hw at 1. rewrite Hl', <- Hlen, deref_at. cbn [bind].
    rewrite Hlen, <- Hl'.
    rewrite (IH (pre ++ [a]) b (wpre ++ [w]) ws fuel).
    + cbn [pairs_from map unlines]. unfold edge_text at 2. cbn [fst snd].
      rewrite !string_app_assoc. reflexivity.
    + exact Hp'.
    + rewrite <- app_assoc. exact Hw.
    + rewrite !length_app. cbn. lia.
    + cbn in Hws. lia.
    + cbn in Hfuel. lia.
Qed.

(** ** The tour depends on the distances between the cities only *)

Section Extensionality.

Variables distance distance' : Node -> Node -> N.
Variable pts : list Node.
Hypothesis agree :
  forall a b, In a pts -> In b pts -> distance a b = distance' a b.

Lemma scan_ext (cur : Node) (rest : list Node) (it : nat) (m : N) (n : nat) :
  In cur pts -> incl rest pts ->
  scan distance cur rest it m n = scan distance' cur rest it m n.
Proof.
  intros Hcur. revert it m n.
  induction rest as [|c rest IH]; intros it m n Hrest; [reflexivity|].
  cbn [scan]. cbv zeta.
  rewrite (agree cur c Hcur (Hrest c (in_eq c rest))).
  rewrite !IH by (eapply incl_cons_inv; eassumption). reflexivity.
Qed.

Lemma loop_body_ext (st : locals) :
  In (current st) pts -> incl (cities st) pts ->
  loop_body distance st = loop_body distance' st.
Proof.
  intros Hcur Hcs. unfold loop_body, find_nearest.
  destruct (cities st) as [|c0 rest]; [reflexivity|].
  cbn [deref nth_error bind tl].
  rewrite (agree _ c0 Hcur (Hcs c0 (in_eq c0 rest))).
  rewrite scan_ext by (assumption || (eapply incl_cons_inv; eassumption)).
  reflexivity.
Qed.

Lemma while_loop_ext (fuel : nat) (st : locals) :
  In (current st) pts -> incl (cities st) pts ->
  while_loop distance fuel st = while_loop distance' fuel st.
Proof.
  revert st. induction fuel as [|fuel IH]; intros st Hcur Hcs.
  - reflexivity.
  - cbn [while_loop].
    destruct (list_eq_dec_nil (cities st)) as [Hnil|Hne].
    + rewrite Hnil. reflexivity.
    + rewrite <- (loop_body_ext st Hcur Hcs).
      destruct (loop_body_returns distance st Hne) as (c & l1 & l2 & Hsplit & _ & E).
      rewrite E. cbn [bind]. rewrite Hsplit in Hcs.
      destruct (cities st); [congruence|].
      apply IH; cbn [current cities].
      * apply Hcs, in_elt.
      * intros u Hu. apply Hcs. apply in_app_or in Hu.
        apply in_or_app. destruct Hu; [left|right; right]; assumption.
Qed.

Lemma nearestNeighbor_ext (cs : list Node) (start_id : N) :
  incl cs pts ->
  nearestNeighbor distance cs start_id = nearestNeighbor distance' cs start_id.
Proof.
  intros Hcs. unfold nearestNeighbor.
  destruct (in_dec N.eq_dec start_id (map id cs)) as [Hin|Hout].
  - destruct (find_start_present cs start_id Hin) as (c & Hnth & Hid).
    destruct (nth_error_split _ _ Hnth) as (l1 & l2 & Hsplit & Hlen).
    rewrite !(nearestNeighbor_body_found _ cs l1 l2 c start_id Hsplit Hlen).
    assert (Hc : In c pts) by (apply Hcs; rewrite Hsplit; apply in_elt).
    rewrite <- while_loop_ext; cbn [current cities]; [|assumption|].
    + destruct (while_loop_returns distance cs c (length (l1 ++ l2)) _
                  (tour_invariant_init distance cs l1 l2 c Hsplit) (le_n _))
        as (st & E & [Hperm (rest & Hpath & Hcur) _ _] & Hnil).
      rewrite E. cbn [bind]. unfold close_tour, front. rewrite Hpath.
      cbn [deref nth_error bind]. rewrite agree; [reflexivity| |assumption].
      apply Hcs. apply (Permutation_in _ Hperm). apply in_or_app. left.
      rewrite Hpath, Hcur. destruct rest as [|r rest]; [left; reflexivity|].
      right. apply last_In. discriminate.
    + intros u Hu. apply Hcs. rewrite Hsplit. apply in_app_or in Hu.
      apply in_or_app. destruct Hu; [left|right; right]; assumption.
  - rewrite !nearestNeighbor_body_undefined by assumption. reflexivity.
Qed.

End Extensionality.

(** ** Worked examples *)

(** The narrowing truncates: the points (0,0) and (2,2) are 2.83 apart, and
    their distance is 2, not 3. *)
Example Node_distance_truncates :
  Node_distance (pt 1 0 0) (pt 2 2 2) = Some 2
  /\ Node_distance (pt 1 0 0) (pt 2 1 1) = Some 1.
Proof. split; vm_compute; reflexivity. Qed.

(** Of two cities at the same least distance the one met first in the list
    is taken: from (0,0), with (3,4), (3,0) and (0,3) left in this order,
    the next city is (3,0). *)
Example loop_body_takes_first_of_ties :
  loop_body (distance_or 0)
    (mkLocals [pt 3 3 4; pt 2 3 0; pt 4 0 3] (pt 1 0 0) (mkTour [pt 1 0 0] [0] 0))
  = Returned
      (mkLocals [pt 3 3 4; pt 4 0 3] (pt 2 3 0)
         (mkTour [pt 1 0 0; pt 2 3 0] [0; 3] 3)).
Proof. vm_compute. reflexivity. Qed.

(** * Main results *)

Lemma distance_or_implements (undef : N) : implements (distance_or undef).
Proof. intros a b d H. unfold distance_or. rewrite H. reflexivity. Qed.

(** On points between which the specified distance is defined, every
    implementation of it builds the same tours. *)
Lemma implements_defined_on (distance : Node -> Node -> N) (undef : N)
      (pts : list Node) (start_id : N) :
  implements distance ->
  defined_on pts = true ->
  nearestNeighbor distance pts start_id
  = nearestNeighbor (distance_or undef) pts start_id.
Proof.
  intros Himpl Hdef.
  apply (nearestNeighbor_ext distance (distance_or undef) pts);
    [|apply incl_refl].
  intros a b Ha Hb. unfold defined_on in Hdef.
  rewrite forallb_forall in Hdef. specialize (Hdef a Ha).
  rewrite forallb_forall in Hdef. specialize (Hdef b Hb).
  unfold distance_or.
  destruct (Node_distance a b) as [d|] eqn:E; [|discriminate].
  apply Himpl, E.
Qed.

(** C1, as the code has it: when the collection is empty or holds no
    point whose id is [start_id], [nearestNeighbor] dereferences the end
    iterator; its behaviour is undefined, and no PreconditionError (no
    error at all) is raised. *)
Theorem nearestNeighbor_start_absent (distance : Node -> Node -> N)
        (cs : list Node) (start_id : N) :
  cs = [] \/ ~ In start_id (map id cs) ->
  nearestNeighbor distance cs start_id = Undefined.
Proof.
  intros H.
  assert (Hout : ~ In start_id (map id cs)) by (destruct H as [-> | H]; auto).
  unfold nearestNeighbor.
  rewrite (nearestNeighbor_body_undefined distance cs start_id Hout).
  reflexivity.
Qed.

Lemma nearestNeighbor_start_absent_witness :
  ([pt 1 5 5] = [] \/ ~ In 2 (map id [pt 1 5 5]))
  /\ nearestNeighbor (distance_or 0) [pt 1 5 5] 2 = Undefined.
Proof.
  assert (H : [pt 1 5 5] = [] \/ ~ In 2 (map id [pt 1 5 5])).
  { right. cbn. intros [E|[]]. discriminate E. }
  split; [exact H|].
  apply (nearestNeighbor_start_absent (distance_or 0) [pt 1 5 5] 2 H).
Defined.

(** C2: for a non-empty collection of points with distinct ids and a
    [start_id] present in it, [nearestNeighbor] returns a tour whose path
    has one point more than the collection, begins and ends with the point
    whose id is [start_id], goes, before the closing point, through a
    rearrangement of the collection, and so holds [start_id] twice and the
    id of every other input point exactly once. *)
Theorem nearestNeighbor_tour_shape (distance : Node -> Node -> N)
        (cs : list Node) (start_id : N) :
  cs <> [] ->
  NoDup (map id cs) ->
  In start_id (map id cs) ->
  exists t,
    nearestNeighbor distance cs start_id = Returned t
    /\ length (path t) = S (length cs)
    /\ option_map id (nth_error (path t) 0) = Some start_id
    /\ option_map id (nth_error (path t) (length cs)) = Some start_id
    /\ Permutation (removelast (path t)) cs
    /\ count_occ N.eq_dec (map id (path t)) start_id = 2%nat
    /\ (forall c, In c cs -> id c <> start_id ->
                  count_occ N.eq_dec (map id (path t)) (id c) = 1%nat).
Proof.
  intros _ Hnodup Hin.
  destruct (nearestNeighbor_body_returns distance cs start_id Hin)
    as (start & rest & Hid & Hperm & E).
  exists (closed_tour distance (start :: rest)).
  unfold nearestNeighbor. rewrite E. cbn [bind fst closed_tour path firstn].
  cbv zeta. cbn [path].
  pose proof (Permutation_length Hperm) as Hlen.
  repeat split.
  - rewrite length_app, Hlen. cbn. lia.
  - cbn. congruence.
  - rewrite <- Hlen, nth_error_app2, Nat.sub_diag by lia. cbn. congruence.
  - rewrite removelast_last. assumption.
  - assert (Hp : Permutation (map id (start :: rest)) (map id cs))
      by (apply Permutation_map; assumption).
    rewrite map_app, count_occ_app.
    rewrite (proj1 (Permutation_count_occ N.eq_dec _ _) Hp).
    rewrite (proj1 (NoDup_count_occ' N.eq_dec (map id cs)) Hnodup)
      by assumption.
    cbn [map count_occ].
    destruct (N.eq_dec (id start) start_id) as [_|Ne]; [reflexivity|congruence].
  - intros c Hc Hne.
    assert (Hp : Permutation (map id (start :: rest)) (map id cs))
      by (apply Permutation_map; assumption).
    rewrite map_app, count_occ_app.
    rewrite (proj1 (Permutation_count_occ N.eq_dec _ _) Hp).
    rewrite (proj1 (NoDup_count_occ' N.eq_dec (map id cs)) Hnodup)
      by (apply in_map; assumption).
    cbn [map count_occ].
    destruct (N.eq_dec (id start) (id c)) as [Eq|_]; [congruence|reflexivity].
Qed.

Lemma nearestNeighbor_tour_shape_witness :
  exists t,
    nearestNeighbor (distance_or 0) [pt 1 0 0; pt 2 3 0; pt 3 3 4] 1 = Returned t
    /\ length (path t) = 4%nat
    /\ option_map id (nth_error (path t) 0) = Some 1
    /\ option_map id (nth_error (path t) 3) = Some 1
    /\ Permutation (removelast (path t)) [pt 1 0 0; pt 2 3 0; pt 3 3 4]
    /\ count_occ N.eq_dec (map id (path t)) 1 = 2%nat
    /\ (forall c, In c [pt 1 0 0; pt 2 3 0; pt 3 3 4] -> id c <> 1 ->
                  count_occ N.eq_dec (map id (path t)) (id c) = 1%nat).
Proof.
  apply (nearestNeighbor_tour_shape (distance_or 0)
           [pt 1 0 0; pt 2 3 0; pt 3 3 4] 1).
  - discriminate.
  - cbn. repeat constructor; cbn; intuition discriminate.
  - cbn. auto.
Defined.

(** C3: at every iteration of the loop (the working list not empty), the
    iteration returns, and the point it appends to the path, which becomes
    the current point and leaves the working list, is the first point of
    the working list, in its order, at the least distance from the current
    point: no remaining point is nearer, and every point before it is
    strictly farther. *)
Theorem loop_body_first_nearest (distance : Node -> Node -> N) (st : locals) :
  cities st <> [] ->
  exists st' i,
    loop_body distance st = Returned st'
    /\ first_nearest distance (current st) (cities st) i (current st')
    /\ path (tour st') = path (tour st) ++ [current st']
    /\ weights (tour st')
       = weights (tour st) ++ [distance (current st) (current st')]
    /\ cities st' = firstn i (cities st) ++ skipn (S i) (cities st).
Proof.
  intros Hne.
  destruct (loop_body_returns distance st Hne) as (c & l1 & l2 & Hcs & Hfn & E).
  eexists. exists (length l1). split; [exact E|].
  cbn [current tour path weights cities]. repeat split; try apply Hfn.
  pose proof (erase_at l1 l2 c) as Her. unfold erase in Her.
  rewrite <- Hcs in Her. destruct (nth_error (cities st) (length l1)); congruence.
Qed.

Lemma loop_body_first_nearest_witness :
  exists st' i,
    loop_body (distance_or 0)
      (mkLocals [pt 3 3 4; pt 2 3 0; pt 4 0 3] (pt 1 0 0)
         (mkTour [pt 1 0 0] [0] 0)) = Returned st'
    /\ first_nearest (distance_or 0) (pt 1 0 0)
         [pt 3 3 4; pt 2 3 0; pt 4 0 3] i (current st')
    /\ path (tour st') = [pt 1 0 0] ++ [current st']
    /\ weights (tour st') = [0] ++ [distance_or 0 (pt 1 0 0) (current st')]
    /\ cities st' = firstn i [pt 3 3 4; pt 2 3 0; pt 4 0 3]
                    ++ skipn (S i) [pt 3 3 4; pt 2 3 0; pt 4 0 3].
Proof.
  apply (loop_body_first_nearest (distance_or 0)
           (mkLocals [pt 3 3 4; pt 2 3 0; pt 4 0 3] (pt 1 0 0)
              (mkTour [pt 1 0 0] [0] 0))).
  cbn. discriminate.
Defined.

(** C4: in every tour [nearestNeighbor] returns, [weights] is as long as
    [path], [weights[0]] is 0, and every later weight is the distance from
    the point before to the point at its index. *)
Theorem nearestNeighbor_weights (distance : Node -> Node -> N)
        (cs : list Node) (start_id : N) (t : Tour) :
  nearestNeighbor distance cs start_id = Returned t ->
  length (weights t) = length (path t)
  /\ nth_error (weights t) 0 = Some 0
  /\ (forall i a b,
         nth_error (path t) i = Some a ->
         nth_error (path t) (S i) = Some b ->
         nth_error (weights t) (S i) = Some (distance a b)).
Proof.
  intros Hret.
  destruct (nearestNeighbor_Returned_inv distance cs start_id t Hret)
    as (start & rest & _ & _ & ->).
  unfold closed_tour. cbn [firstn]. cbv zeta. cbn [path weights].
  split; [apply length_weights_of|]. split; [reflexivity|].
  intros i a b Ha Hb. cbn [app weights_of nth_error] in *.
  apply nth_error_legs; assumption.
Qed.

Lemma nearestNeighbor_weights_witness :
  nearestNeighbor (distance_or 0) [pt 1 0 0; pt 2 3 0; pt 3 3 4] 1
  = Returned (mkTour [pt 1 0 0; pt 2 3 0; pt 3 3 4; pt 1 0 0] [0; 3; 4; 5] 12)
  /\ length [0; 3; 4; 5] = length [pt 1 0 0; pt 2 3 0; pt 3 3 4; pt 1 0 0]
  /\ nth_error [0; 3; 4; 5] 0 = Some 0
  /\ (forall i a b,
         nth_error [pt 1 0 0; pt 2 3 0; pt 3 3 4; pt 1 0 0] i = Some a ->
         nth_error [pt 1 0 0; pt 2 3 0; pt 3 3 4; pt 1 0 0] (S i) = Some b ->
         nth_error [0; 3; 4; 5] (S i) = Some (distance_or 0 a b)).
Proof.
  assert (E : nearestNeighbor (distance_or 0) [pt 1 0 0; pt 2 3 0; pt 3 3 4] 1
              = Returned (mkTour [pt 1 0 0; pt 2 3 0; pt 3 3 4; pt 1 0 0]
                                 [0; 3; 4; 5] 12))
    by (vm_compute; reflexivity).
  split; [exact E|].
  apply (nearestNeighbor_weights (distance_or 0) _ 1 _ E).
Defined.

(** C5, as the code has it: in every tour [nearestNeighbor] returns,
    [total_distance] is the sum of the entries of [weights] taken in
    [size_t], that is their exact sum modulo 2^64; it is the exact sum
    whenever that sum is below 2^64. *)
Theorem nearestNeighbor_total (distance : Node -> Node -> N)
        (cs : list Node) (start_id : N) (t : Tour) :
  nearestNeighbor distance cs start_id = Returned t ->
  total_distance t = SizeT.sum (weights t)
  /\ total_distance t = exact_sum (weights t) mod SizeT.modulus
  /\ (exact_sum (weights t) < SizeT.modulus ->
      total_distance t = exact_sum (weights t)).
Proof.
  intros Hret.
  destruct (nearestNeighbor_Returned_inv distance cs start_id t Hret)
    as (start & rest & _ & _ & ->).
  unfold closed_tour. cbv zeta. cbn [total_distance weights].
  split; [reflexivity|]. split; [apply SizeT_sum_exact|].
  intros Hlt. rewrite SizeT_sum_exact. apply N.mod_small. assumption.
Qed.

Lemma nearestNeighbor_total_witness :
  nearestNeighbor (distance_or 0) [pt 1 0 0; pt 2 3 0; pt 3 3 4] 1
  = Returned (mkTour [pt 1 0 0; pt 2 3 0; pt 3 3 4; pt 1 0 0] [0; 3; 4; 5] 12)
  /\ 12 = SizeT.sum [0; 3; 4; 5]
  /\ 12 = exact_sum [0; 3; 4; 5] mod SizeT.modulus
  /\ (exact_sum [0; 3; 4; 5] < SizeT.modulus -> 12 = exact_sum [0; 3; 4; 5]).
Proof.
  assert (E : nearestNeighbor (distance_or 0) [pt 1 0 0; pt 2 3 0; pt 3 3 4] 1
              = Returned (mkTour [pt 1 0 0; pt 2 3 0; pt 3 3 4; pt 1 0 0]
                                 [0; 3; 4; 5] 12))
    by (vm_compute; reflexivity).
  split; [exact E|].
  apply (nearestNeighbor_total (distance_or 0) _ 1 _ E).
Defined.

(** C5 does not hold of the exact sum: for two cities 2^63 apart, both
    legs weigh 2^63, their exact sum is 2^64, and [total_distance] has
    wrapped to 0. *)
Lemma nearestNeighbor_total_wraps :
  nearestNeighbor (distance_or 0) [pt 1 0 0; pt 2 (2 ^ 63) 0] 1
  = Returned (mkTour [pt 1 0 0; pt 2 (2 ^ 63) 0; pt 1 0 0]
                     [0; 2 ^ 63; 2 ^ 63] 0)
  /\ Node_distance (pt 1 0 0) (pt 2 (2 ^ 63) 0) = Some (2 ^ 63)
  /\ Node_distance (pt 2 (2 ^ 63) 0) (pt 1 0 0) = Some (2 ^ 63)
  /\ exact_sum [0; 2 ^ 63; 2 ^ 63] = 2 ^ 64
  /\ 0 <> exact_sum [0; 2 ^ 63; 2 ^ 63].
Proof.
  repeat split; try (vm_compute; reflexivity).
  vm_compute. discriminate.
Qed.

(** C6: for the points 1:(0,0), 2:(3,0), 3:(3,4) and start 1, with any
    distance function that implements the truncated Euclidean distance,
    [nearestNeighbor] returns the path 1, 2, 3, 1 with weights 0, 3, 4, 5
    and total 12; the three legs are the Euclidean distances narrowed to
    [size_t]. *)
Theorem nearestNeighbor_triangle (distance : Node -> Node -> N) :
  implements distance ->
  nearestNeighbor distance [pt 1 0 0; pt 2 3 0; pt 3 3 4] 1
  = Returned (mkTour [pt 1 0 0; pt 2 3 0; pt 3 3 4; pt 1 0 0] [0; 3; 4; 5] 12)
  /\ map id [pt 1 0 0; pt 2 3 0; pt 3 3 4; pt 1 0 0] = [1; 2; 3; 1]
  /\ Node_distance (pt 1 0 0) (pt 2 3 0) = Some 3
  /\ Node_distance (pt 2 3 0) (pt 3 3 4) = Some 4
  /\ Node_distance (pt 3 3 4) (pt 1 0 0) = Some 5.
Proof.
  intros Himpl. split.
  - rewrite (implements_defined_on distance 0 _ 1 Himpl)
      by (vm_compute; reflexivity).
    vm_compute. reflexivity.
  - repeat split; vm_compute; reflexivity.
Qed.

Lemma nearestNeighbor_triangle_witness :
  nearestNeighbor (distance_or 0) [pt 1 0 0; pt 2 3 0; pt 3 3 4] 1
  = Returned (mkTour [pt 1 0 0; pt 2 3 0; pt 3 3 4; pt 1 0 0] [0; 3; 4; 5] 12)
  /\ map id [pt 1 0 0; pt 2 3 0; pt 3 3 4; pt 1 0 0] = [1; 2; 3; 1]
  /\ Node_distance (pt 1 0 0) (pt 2 3 0) = Some 3
  /\ Node_distance (pt 2 3 0) (pt 3 3 4) = Some 4
  /\ Node_distance (pt 3 3 4) (pt 1 0 0) = Some 5.
Proof.
  apply (nearestNeighbor_triangle (distance_or 0) (distance_or_implements 0)).
Defined.

(** C7: for the single point 1:(5,5) and start 1, with any distance
    function that implements the truncated Euclidean distance,
    [nearestNeighbor] returns the path 1, 1 with weights 0, 0 and total
    0. *)
Theorem nearestNeighbor_single (distance : Node -> Node -> N) :
  implements distance ->
  nearestNeighbor distance [pt 1 5 5] 1
  = Returned (mkTour [pt 1 5 5; pt 1 5 5] [0; 0] 0)
  /\ map id [pt 1 5 5; pt 1 5 5] = [1; 1].
Proof.
  intros Himpl. split; [|reflexivity].
  rewrite (implements_defined_on distance 0 _ 1 Himpl)
    by (vm_compute; reflexivity).
  vm_compute. reflexivity.
Qed.

Lemma nearestNeighbor_single_witness :
  nearestNeighbor (distance_or 0) [pt 1 5 5] 1
  = Returned (mkTour [pt 1 5 5; pt 1 5 5] [0; 0] 0)
  /\ map id [pt 1 5 5; pt 1 5 5] = [1; 1].
Proof.
  apply (nearestNeighbor_single (distance_or 0) (distance_or_implements 0)).
Defined.

Lemma Node_distance_symmetric (a b : Node) :
  Node_distance a b = Node_distance b a.
Proof.
  unfold Node_distance, euclidean. cbv zeta.
  rewrite (DoubleFacts.square_sub_swap (x a) (x b)).
  rewrite (DoubleFacts.square_sub_swap (y a) (y b)). reflexivity.
Qed.

(** Between two points the double that is narrowed is a zero, a positive
    double or plus infinity: never NaN and never below zero. *)
Lemma euclidean_sign (a b : Node) :
  finite_point a = true -> finite_point b = true ->
  has_sign false (euclidean a b) = true.
Proof.
  unfold finite_point. intros Ha Hb.
  apply andb_prop in Ha. destruct Ha as [Hxa Hya].
  apply andb_prop in Hb. destruct Hb as [Hxb Hyb].
  unfold euclidean. cbv zeta.
  apply DoubleSign.sqrt_sign, DoubleSign.add_sign;
    apply DoubleSign.mul_self_sign, DoubleSign.sub_finite_not_nan; assumption.
Qed.

(** Outside the points this fails: a node with an infinite coordinate has
    no distance to itself, the difference of the coordinate with itself
    being NaN, which does not narrow to a [size_t]. *)
Lemma Node_distance_self_undefined :
  Node_distance (mkNode 1 (S754_infinity false) (S754_zero false))
                (mkNode 1 (S754_infinity false) (S754_zero false)) = None
  /\ euclidean (mkNode 1 (S754_infinity false) (S754_zero false))
               (mkNode 1 (S754_infinity false) (S754_zero false)) = S754_nan.
Proof. split; reflexivity. Qed.

(** C8: for every pair of points [a] and [b] (nodes with finite
    coordinates), the distance from [a] to [b] is the distance from [b] to
    [a]; the distance is not negative: the double that is narrowed to the
    unsigned [size_t] is itself at least zero, and never NaN; and the
    distance from [a] to itself is 0. *)
Theorem Node_distance_symmetric_nonnegative (a b : Node) :
  finite_point a = true ->
  finite_point b = true ->
  Node_distance a b = Node_distance b a
  /\ SFleb (S754_zero false) (euclidean a b) = true
  /\ Node_distance a a = Some 0.
Proof.
  intros Ha Hb. split; [apply Node_distance_symmetric|]. split.
  - apply DoubleSign.has_sign_nonnegative, euclidean_sign; assumption.
  - unfold finite_point in Ha. apply andb_prop in Ha. destruct Ha as [Hx Hy].
    unfold Node_distance, euclidean. cbv zeta.
    rewrite !DoubleFacts.sub_diag by assumption. reflexivity.
Qed.

Lemma Node_distance_symmetric_nonnegative_witness :
  Node_distance (pt 1 0 0) (pt 3 3 4) = Node_distance (pt 3 3 4) (pt 1 0 0)
  /\ SFleb (S754_zero false) (euclidean (pt 1 0 0) (pt 3 3 4)) = true
  /\ Node_distance (pt 1 0 0) (pt 1 0 0) = Some 0.
Proof.
  apply (Node_distance_symmetric_nonnegative (pt 1 0 0) (pt 3 3 4));
    reflexivity.
Defined.




(** ** The body touches its parameter object only *)

Section MemoryFacts.

Variable distance : Node -> Node -> N.
Variable param : nat.

(** One iteration in memory does to the object at [param] what the
    iteration does to its list, and leaves every other object alone. *)
Lemma loop_body_at_follows (fr : frame) (st : locals) :
  objects (heap fr) param = cities st ->
  cur fr = current st ->
  built fr = tour st ->
  match loop_body distance st with
  | Returned st' =>
      exists fr',
        loop_body_at distance param fr = Returned fr'
        /\ objects (heap fr') param = cities st'
        /\ cur fr' = current st'
        /\ built fr' = tour st'
        /\ unused (heap fr') = unused (heap fr)
        /\ (forall q, q <> param -> objects (heap fr') q = objects (heap fr) q)
  | Undefined => loop_body_at distance param fr = Undefined
  | OutOfFuel => loop_body_at distance param fr = OutOfFuel
  end.
Proof.
  intros Hobj Hcur Hbuilt. unfold loop_body, loop_body_at.
  rewrite Hobj, Hcur, Hbuilt.
  destruct (find_nearest distance (current st) (cities st)) as [[md it]| |];
    cbn [bind]; try reflexivity.
  destruct (deref (cities st) it) as [nearest| |]; cbn [bind]; try reflexivity.
  destruct (erase (cities st) it) as [erased| |]; cbn [bind]; try reflexivity.
  eexists. split; [reflexivity|].
  cbn [heap cur built store objects unused cities current tour].
  rewrite Nat.eqb_refl. repeat split.
  intros q Hq. apply Nat.eqb_neq in Hq. rewrite Hq. reflexivity.
Qed.

Lemma while_loop_at_follows (fuel : nat) (fr : frame) (st : locals) :
  objects (heap fr) param = cities st ->
  cur fr = current st ->
  built fr = tour st ->
  match while_loop distance fuel st with
  | Returned st' =>
      exists fr',
        while_loop_at distance param fuel fr = Returned fr'
        /\ objects (heap fr') param = cities st'
        /\ cur fr' = current st'
        /\ built fr' = tour st'
        /\ unused (heap fr') = unused (heap fr)
        /\ (forall q, q <> param -> objects (heap fr') q = objects (heap fr) q)
  | Undefined => while_loop_at distance param fuel fr = Undefined
  | OutOfFuel => while_loop_at distance param fuel fr = OutOfFuel
  end.
Proof.
  revert fr st. induction fuel as [|fuel IH]; intros fr st Hobj Hcur Hbuilt;
    pose proof (loop_body_at_follows fr st Hobj Hcur Hbuilt) as Hstep;
    cbn [while_loop while_loop_at]; rewrite Hobj;
    destruct (cities st) as [|c0 rest] eqn:Hcs;
    try (exists fr; rewrite Hcs; auto 10; fail); try reflexivity.
  destruct (loop_body distance st) as [st1| |]; cbn [bind].
  - destruct Hstep as (fr1 & E & Hobj1 & Hcur1 & Hbuilt1 & Hun1 & Hfr1).
    rewrite E. cbn [bind].
    pose proof (IH fr1 st1 Hobj1 Hcur1 Hbuilt1) as Hrest.
    destruct (while_loop distance fuel st1) as [st2| |].
    + destruct Hrest as (fr2 & E2 & Hobj2 & Hcur2 & Hbuilt2 & Hun2 & Hfr2).
      exists fr2. repeat split; try assumption; try congruence.
      intros q Hq. rewrite (Hfr2 q Hq). apply Hfr1, Hq.
    + exact Hrest.
    + exact Hrest.
  - rewrite Hstep. reflexivity.
  - rewrite Hstep. reflexivity.
Qed.

Lemma nearestNeighbor_at_follows (m : memory) (start_id : N) :
  match nearestNeighbor_body distance (objects m param) start_id with
  | Returned r =>
      exists m',
        nearestNeighbor_at distance param m start_id = Returned (fst r, m')
        /\ objects m' param = snd r
        /\ unused m' = unused m
        /\ (forall q, q <> param -> objects m' q = objects m q)
  | Undefined => nearestNeighbor_at distance param m start_id = Undefined
  | OutOfFuel => nearestNeighbor_at distance param m start_id = OutOfFuel
  end.
Proof.
  unfold nearestNeighbor_body, nearestNeighbor_at. cbv zeta.
  destruct (deref (objects m param) (find_start (objects m param) start_id))
    as [c| |]; cbn [bind]; try reflexivity.
  destruct (erase (objects m param) (find_start (objects m param) start_id))
    as [erased| |]; cbn [bind]; try reflexivity.
  pose proof (while_loop_at_follows (length erased)
                (mkFrame (store m param erased) c (mkTour [c] [0] 0))
                (mkLocals erased c (mkTour [c] [0] 0))) as Hloop.
  cbn [heap cur built store objects cities current tour] in Hloop.
  rewrite Nat.eqb_refl in Hloop.
  specialize (Hloop eq_refl eq_refl eq_refl).
  destruct (while_loop distance (length erased) _) as [st| |]; cbn [bind].
  - destruct Hloop as (fr & E & Hobj & Hcur & Hbuilt & Hun & Hfr).
    rewrite E. cbn [bind]. unfold close_tour.
    cbn [tour current]. rewrite Hcur, Hbuilt.
    destruct (front (path (tour st))) as [s| |]; cbn [bind]; try reflexivity.
    exists (heap fr). cbn [fst snd]. repeat split; try assumption.
    intros q Hq. rewrite (Hfr q Hq). cbn.
    apply Nat.eqb_neq in Hq. rewrite Hq. reflexivity.
  - rewrite Hloop. reflexivity.
  - rewrite Hloop. reflexivity.
Qed.

End MemoryFacts.

(** C10: [nearestNeighbor] takes the collection by value and does not
    touch the caller's collection.  For a caller's list at an address in
    use, a call with [start_id] present returns the tour of
    [nearestNeighbor] and a memory in which every object of the caller,
    its argument among them, is what it was before the call, although the
    body has emptied the list it worked on, its own copy; with [start_id]
    absent the call is undefined, as the body is. *)
Theorem call_nearestNeighbor_by_value (distance : Node -> Node -> N)
        (m : memory) (arg : nat) (start_id : N) :
  (arg < unused m)%nat ->
  (In start_id (map id (objects m arg)) ->
   exists t m',
     call_nearestNeighbor distance m arg start_id = Returned (t, m')
     /\ nearestNeighbor distance (objects m arg) start_id = Returned t
     /\ unused m' = unused m
     /\ (forall q, (q < unused m)%nat -> objects m' q = objects m q)
     /\ objects m' (unused m) = [])
  /\ (~ In start_id (map id (objects m arg)) ->
      call_nearestNeighbor distance m arg start_id = Undefined).
Proof.
  intros Harg. unfold call_nearestNeighbor, copy_construct.
  set (m1 := mkMemory _ (S (unused m))).
  assert (Hcopy : objects m1 (unused m) = objects m arg)
    by (cbn; rewrite Nat.eqb_refl; reflexivity).
  pose proof (nearestNeighbor_at_follows distance (unused m) m1 start_id) as Hbody.
  rewrite Hcopy in Hbody. split.
  - intros Hin.
    destruct (nearestNeighbor_body_returns distance (objects m arg) start_id Hin)
      as (s & rest & _ & _ & E).
    rewrite E in Hbody. destruct Hbody as (m' & E' & Hobj & Hun & Hfr).
    cbn [fst snd] in E', Hobj.
    exists (closed_tour distance (s :: rest)), (destroy m' (unused m)).
    rewrite E'. cbn [bind fst snd]. split; [reflexivity|].
    split; [unfold nearestNeighbor; rewrite E; reflexivity|].
    split; [reflexivity|]. split; [|exact Hobj].
    intros q Hq. cbn [destroy objects].
    rewrite (Hfr q) by lia. cbn [m1 objects].
    replace (Nat.eqb q (unused m)) with false
      by (symmetry; apply Nat.eqb_neq; lia).
    reflexivity.
  - intros Hout.
    rewrite (nearestNeighbor_body_undefined distance _ start_id Hout) in Hbody.
    rewrite Hbody. reflexivity.
Qed.

Lemma call_nearestNeighbor_by_value_witness :
  exists t m',
    call_nearestNeighbor (distance_or 0)
      (mkMemory (fun _ => [pt 1 0 0; pt 2 3 0; pt 3 3 4]) 1) 0 1
    = Returned (t, m')
    /\ nearestNeighbor (distance_or 0) [pt 1 0 0; pt 2 3 0; pt 3 3 4] 1
       = Returned t
    /\ unused m' = 1%nat
    /\ (forall q, (q < 1)%nat -> objects m' q = [pt 1 0 0; pt 2 3 0; pt 3 3 4])
    /\ objects m' 1 = [].
Proof.
  apply (call_nearestNeighbor_by_value (distance_or 0)
           (mkMemory (fun _ => [pt 1 0 0; pt 2 3 0; pt 3 3 4]) 1) 0 1).
  - cbn. lia.
  - cbn. auto.
Defined.

(** * Further results on the tour builder *)

Lemma find_start_first (cs : list Node) (s : N) :
  In s (map id cs) ->
  exists l1 c l2,
    cs = l1 ++ c :: l2
    /\ length l1 = find_start cs s
    /\ id c = s
    /\ Forall (fun u => id u <> s) l1.
Proof.
  induction cs as [|c cs IH]; cbn; intros H; [tauto|].
  destruct (N.eqb_spec (id c) s) as [E|E].
  - exists [], c, cs. repeat split; auto.
  - destruct IH as (l1 & c' & l2 & -> & Hlen & Hid & Hall); [tauto|].
    exists (c :: l1), c', l2. cbn. repeat split; auto.
Qed.

Lemma nth_error_last {A : Type} (l : list A) (i : nat) (a d : A) :
  nth_error l i = Some a -> S i = length l -> last l d = a.
Proof.
  intros Hnth Hlen.
  assert (Hne : l <> []) by (destruct l; [discriminate|discriminate]).
  rewrite (app_removelast_last d Hne) in Hnth.
  assert (Hrl : length (removelast l) = i).
  { pose proof (f_equal (@length A) (app_removelast_last d Hne)) as E.
    rewrite length_app in E. cbn in E. lia. }
  rewrite nth_error_app2, Hrl, Nat.sub_diag in Hnth by lia.
  cbn in Hnth. congruence.
Qed.

Lemma exact_sum_app (l1 l2 : list N) :
  exact_sum (l1 ++ l2) = exact_sum l1 + exact_sum l2.
Proof.
  induction l1 as [|w l1 IH]; cbn; [reflexivity|].
  unfold exact_sum in *. rewrite IH. lia.
Qed.

Section BuilderMore.

Variable distance : Node -> Node -> N.

Lemma while_loop_preserves (P : locals -> Prop) :
  (forall st st', P st -> loop_body distance st = Returned st' -> P st') ->
  forall fuel st st',
    P st -> while_loop distance fuel st = Returned st' -> P st'.
Proof.
  intros Hstep. induction fuel as [|fuel IH]; intros st st' HP Hrun;
    cbn [while_loop] in Hrun; destruct (cities st) eqn:Hcs;
    try discriminate; try (injection Hrun as <-; assumption).
  destruct (loop_body distance st) as [st1| |] eqn:Hbody; try discriminate.
  cbn [bind] in Hrun. eapply IH; [|eassumption]. eapply Hstep; eassumption.
Qed.

Lemma loop_body_nearest_first (all : list Node) (start : Node) (st st' : locals) :
  tour_invariant distance all start st /\ nearest_first distance (path (tour st)) (cities st) ->
  loop_body distance st = Returned st' ->
  tour_invariant distance all start st'
  /\ nearest_first distance (path (tour st')) (cities st').
Proof.
  intros [Hinv Hnf] Hbody.
  split; [apply (loop_body_invariant distance all start st st' Hinv Hbody)|].
  destruct (list_eq_dec_nil (cities st)) as [Hnil|Hne].
  { unfold loop_body, find_nearest in Hbody. rewrite Hnil in Hbody. discriminate. }
  destruct (loop_body_returns distance st Hne) as (c & l1 & l2 & Hcs & Hfn & E).
  rewrite E in Hbody. injection Hbody as <-. cbn [cities tour path].
  destruct Hinv as [_ (rest & Hpath & Hcur) _ _].
  destruct Hfn as (_ & Hmin & _).
  assert (Hsub : forall u, In u (l1 ++ l2) -> In u (cities st)).
  { intros u Hu. rewrite Hcs. apply in_app_or in Hu. apply in_or_app.
    destruct Hu; [left|right; right]; assumption. }
  assert (Hc : In c (cities st)) by (rewrite Hcs; apply in_elt).
  set (p := path (tour st)) in *.
  intros i a b u Ha Hb Hu.
  destruct (Nat.lt_trichotomy (S i) (length p)) as [Hlt|[Heq|Hgt]].
  - rewrite nth_error_app1 in Ha, Hb by lia.
    apply (Hnf i a b u Ha Hb).
    destruct Hu as [Hu|(j & Hj & Hu)]; [left; auto|].
    destruct (Nat.lt_ge_cases j (length p)) as [Hjl|Hjg].
    + right. exists j. rewrite nth_error_app1 in Hu by lia. auto.
    + left. rewrite nth_error_app2 in Hu by lia.
      destruct (j - length p)%nat as [|[|k]]; cbn in Hu; try discriminate.
      congruence.
  - rewrite nth_error_app1 in Ha by lia.
    rewrite nth_error_app2, <- Heq, Nat.sub_diag in Hb by lia.
    cbn in Hb. injection Hb as <-.
    assert (Ecur : current st = a).
    { rewrite Hcur. unfold p in *. rewrite Hpath in Ha, Heq.
      replace (last rest start) with (last (start :: rest) start)
        by (destruct rest; reflexivity).
      apply (nth_error_last _ i); assumption. }
    rewrite <- Ecur.
    destruct Hu as [Hu|(j & Hj & Hu)]; [apply Hmin, Hsub, Hu|].
    assert (Hnone : nth_error (p ++ [c]) j = None).
    { apply nth_error_None. rewrite length_app. cbn. lia. }
    congruence.
  - assert (Hnone : nth_error (p ++ [c]) (S i) = None).
    { apply nth_error_None. rewrite length_app. cbn. lia. }
    congruence.
Qed.

(** The body from the first city [c] whose id is [start_id]: the tour goes
    through a rearrangement of the cities that begins with [c], and it is
    nearest-first. *)
Lemma nearestNeighbor_body_from (cs l1 l2 : list Node) (c : Node) (start_id : N) :
  cs = l1 ++ c :: l2 ->
  length l1 = find_start cs start_id ->
  exists rest,
    Permutation (c :: rest) cs
    /\ nearest_first distance (c :: rest) []
    /\ nearestNeighbor_body distance cs start_id
       = Returned (closed_tour distance (c :: rest), []).
Proof.
  intros Hsplit Hlen.
  set (st0 := mkLocals (l1 ++ l2) c (mkTour [c] [0] 0)).
  pose proof (tour_invariant_init distance cs l1 l2 c Hsplit) as Hinv0.
  destruct (while_loop_returns distance cs c (length (l1 ++ l2)) st0 Hinv0 (le_n _))
    as (st & E & _ & Hnil).
  assert (Hnf0 : nearest_first distance (path (tour st0)) (cities st0)).
  { intros i a b u Ha Hb _. destruct i; discriminate. }
  destruct (while_loop_preserves
              (fun s => tour_invariant distance cs c s
                        /\ nearest_first distance (path (tour s)) (cities s))
              (loop_body_nearest_first cs c) _ st0 st (conj Hinv0 Hnf0) E)
    as [[Hperm (rest & Hpath & Hcur) Hw Ht] Hnf].
  exists rest. rewrite Hpath, Hnil in Hnf. split; [|split; [exact Hnf|]].
  - rewrite Hpath, Hnil, app_nil_r in Hperm. assumption.
  - rewrite (nearestNeighbor_body_found distance cs l1 l2 c start_id Hsplit Hlen).
    fold st0. rewrite E. cbn [bind]. unfold close_tour, front. rewrite Hpath.
    cbn [deref nth_error bind].
    rewrite Hnil. unfold closed_tour. cbn [firstn]. cbv zeta.
    rewrite weights_of_snoc, SizeT_sum_snoc, Ht, Hw, Hcur, Hpath.
    reflexivity.
Qed.

Lemma nearestNeighbor_Returned_from (cs : list Node) (start_id : N) (t : Tour) :
  nearestNeighbor distance cs start_id = Returned t ->
  exists l1 c l2 rest,
    cs = l1 ++ c :: l2
    /\ id c = start_id
    /\ Forall (fun u => id u <> start_id) l1
    /\ Permutation (c :: rest) cs
    /\ nearest_first distance (c :: rest) []
    /\ t = closed_tour distance (c :: rest).
Proof.
  intros Hret. unfold nearestNeighbor in Hret.
  destruct (in_dec N.eq_dec start_id (map id cs)) as [Hin|Hout].
  - destruct (find_start_first cs start_id Hin)
      as (l1 & c & l2 & Hsplit & Hlen & Hid & Hall).
    destruct (nearestNeighbor_body_from cs l1 l2 c start_id Hsplit Hlen)
      as (rest & Hperm & Hnf & E).
    rewrite E in Hret. cbn in Hret. injection Hret as <-.
    exists l1, c, l2, rest. auto 10.
  - rewrite (nearestNeighbor_body_undefined distance cs start_id Hout) in Hret.
    discriminate.
Qed.

(** The legs of a path between points no more than [D] apart sum to at
    most [D] for every leg. *)
Lemma exact_sum_legs_le (D : N) (a : Node) (rest : list Node) :
  (forall u v, In u (a :: rest) -> In v (a :: rest) -> distance u v <= D) ->
  exact_sum (legs distance a rest) <= N.of_nat (length rest) * D.
Proof.
  revert a. induction rest as [|b rest IH]; intros a Hb.
  - cbn. lia.
  - cbn [legs length]. change (exact_sum (?w :: ?l)) with (w + exact_sum l).
    assert (H1 : distance a b <= D) by (apply Hb; cbn; auto).
    assert (H2 : exact_sum (legs distance b rest) <= N.of_nat (length rest) * D).
    { apply IH. intros u v Hu Hv. apply Hb; right; assumption. }
    lia.
Qed.

End BuilderMore.

(** X1: ids need not be distinct.  Whenever some city has the id
    [start_id], [nearestNeighbor] returns; the tour starts and ends at the
    first city of the list, in list order, that has this id, and before
    the closing point its path is a rearrangement of the whole list, every
    city (a second city with the id [start_id] too) being visited once. *)
Theorem nearestNeighbor_first_match (distance : Node -> Node -> N)
        (cs : list Node) (start_id : N) :
  In start_id (map id cs) ->
  exists l1 c l2 t,
    cs = l1 ++ c :: l2
    /\ id c = start_id
    /\ Forall (fun u => id u <> start_id) l1
    /\ nearestNeighbor distance cs start_id = Returned t
    /\ length (path t) = S (length cs)
    /\ nth_error (path t) 0 = Some c
    /\ nth_error (path t) (length cs) = Some c
    /\ Permutation (removelast (path t)) cs.
Proof.
  intros Hin.
  destruct (find_start_first cs start_id Hin)
    as (l1 & c & l2 & Hsplit & Hlen & Hid & Hall).
  destruct (nearestNeighbor_body_from distance cs l1 l2 c start_id Hsplit Hlen)
    as (rest & Hperm & _ & E).
  exists l1, c, l2, (closed_tour distance (c :: rest)).
  unfold nearestNeighbor. rewrite E. cbn [bind fst closed_tour path firstn].
  cbv zeta. cbn [path].
  pose proof (Permutation_length Hperm) as Hl.
  repeat split; auto.
  - rewrite length_app, Hl. cbn. lia.
  - rewrite <- Hl, nth_error_app2, Nat.sub_diag by lia. reflexivity.
  - rewrite removelast_last. assumption.
Qed.

Lemma nearestNeighbor_first_match_witness :
  exists l1 c l2 t,
    [pt 2 3 0; pt 1 0 0; pt 1 3 4] = l1 ++ c :: l2
    /\ id c = 1
    /\ Forall (fun u => id u <> 1) l1
    /\ nearestNeighbor (distance_or 0) [pt 2 3 0; pt 1 0 0; pt 1 3 4] 1 = Returned t
    /\ length (path t) = 4%nat
    /\ nth_error (path t) 0 = Some c
    /\ nth_error (path t) 3 = Some c
    /\ Permutation (removelast (path t)) [pt 2 3 0; pt 1 0 0; pt 1 3 4].
Proof.
  apply (nearestNeighbor_first_match (distance_or 0)
           [pt 2 3 0; pt 1 0 0; pt 1 3 4] 1).
  cbn. auto.
Defined.

(** X2: a returned tour is nearest-first.  Every leg [path[i] ->
    path[i+1]] before the closing one is no longer than the way from
    [path[i]] to any city visited later ([path[j]], [i < j], the closing
    point apart). *)
Theorem nearestNeighbor_nearest_first (distance : Node -> Node -> N)
        (cs : list Node) (start_id : N) (t : Tour) :
  nearestNeighbor distance cs start_id = Returned t ->
  forall i j a b c,
    (i < j)%nat -> (j < length cs)%nat ->
    nth_error (path t) i = Some a ->
    nth_error (path t) (S i) = Some b ->
    nth_error (path t) j = Some c ->
    distance a b <= distance a c.
Proof.
  intros Hret i j a b c Hij Hj Ha Hb Hc.
  destruct (nearestNeighbor_Returned_from distance cs start_id t Hret)
    as (l1 & s & l2 & rest & _ & _ & _ & Hperm & Hnf & ->).
  pose proof (Permutation_length Hperm) as Hl.
  unfold closed_tour in Ha, Hb, Hc. cbn [firstn path] in Ha, Hb, Hc.
  cbv zeta in Ha, Hb, Hc. cbn [path] in Ha, Hb, Hc.
  rewrite nth_error_app1 in Ha, Hb, Hc by lia.
  destruct (Nat.eq_dec j (S i)) as [->|Hne].
  - assert (b = c) by congruence. subst c. apply N.le_refl.
  - apply (Hnf i a b c Ha Hb). right. exists j. split; [lia|assumption].
Qed.

Lemma nearestNeighbor_nearest_first_witness :
  nearestNeighbor (distance_or 0) [pt 1 0 0; pt 2 3 0; pt 3 3 4] 1
  = Returned (mkTour [pt 1 0 0; pt 2 3 0; pt 3 3 4; pt 1 0 0] [0; 3; 4; 5] 12)
  /\ distance_or 0 (pt 1 0 0) (pt 2 3 0) <= distance_or 0 (pt 1 0 0) (pt 3 3 4).
Proof.
  assert (E : nearestNeighbor (distance_or 0) [pt 1 0 0; pt 2 3 0; pt 3 3 4] 1
              = Returned (mkTour [pt 1 0 0; pt 2 3 0; pt 3 3 4; pt 1 0 0]
                                 [0; 3; 4; 5] 12))
    by (vm_compute; reflexivity).
  split; [exact E|].
  apply (nearestNeighbor_nearest_first (distance_or 0) _ 1 _ E 0 2);
    try reflexivity; cbn; lia.
Defined.

(** X3: no wrap-around on small instances.  When no two cities of the
    collection are more than [D] apart and [n * D] is below 2^64 for the
    [n] cities, the [total_distance] of a returned tour is the exact sum of
    its weights, and it is at most [n * D]. *)
Theorem nearestNeighbor_total_exact (distance : Node -> Node -> N)
        (cs : list Node) (start_id : N) (t : Tour) (D : N) :
  (forall a b, In a cs -> In b cs -> distance a b <= D) ->
  N.of_nat (length cs) * D < SizeT.modulus ->
  nearestNeighbor distance cs start_id = Returned t ->
  total_distance t = exact_sum (weights t)
  /\ total_distance t <= N.of_nat (length cs) * D.
Proof.
  intros Hbound Hsmall Hret.
  destruct (nearestNeighbor_Returned_from distance cs start_id t Hret)
    as (l1 & s & l2 & rest & _ & _ & _ & Hperm & _ & ->).
  pose proof (Permutation_length Hperm) as Hl.
  unfold closed_tour. cbn [firstn]. cbv zeta. cbn [total_distance weights].
  assert (Hle : exact_sum (weights_of distance ((s :: rest) ++ [s]))
                <= N.of_nat (length cs) * D).
  { cbn [app weights_of]. change (exact_sum (0 :: ?l)) with (0 + exact_sum l).
    rewrite N.add_0_l.
    pose proof (exact_sum_legs_le distance D s (rest ++ [s])) as H.
    rewrite length_app in H. cbn [length] in H, Hl.
    replace (length rest + 1)%nat with (length cs) in H by lia.
    apply H. intros u v Hu Hv.
    assert (Hin : forall w, In w (s :: rest ++ [s]) -> In w cs).
    { intros w Hw. apply (Permutation_in _ Hperm).
      destruct Hw as [<-|Hw]; [left; reflexivity|].
      apply in_app_or in Hw. destruct Hw as [Hw|[<-|[]]];
        [right; assumption|left; reflexivity]. }
    apply Hbound; apply Hin; assumption. }
  rewrite SizeT_sum_exact, N.mod_small by lia. split; [reflexivity|exact Hle].
Qed.

Lemma nearestNeighbor_total_exact_witness :
  nearestNeighbor (distance_or 0) [pt 1 0 0; pt 2 3 0; pt 3 3 4] 1
  = Returned (mkTour [pt 1 0 0; pt 2 3 0; pt 3 3 4; pt 1 0 0] [0; 3; 4; 5] 12)
  /\ 12 = exact_sum [0; 3; 4; 5]
  /\ 12 <= N.of_nat 3 * 5.
Proof.
  assert (E : nearestNeighbor (distance_or 0) [pt 1 0 0; pt 2 3 0; pt 3 3 4] 1
              = Returned (mkTour [pt 1 0 0; pt 2 3 0; pt 3 3 4; pt 1 0 0]
                                 [0; 3; 4; 5] 12))
    by (vm_compute; reflexivity).
  split; [exact E|].
  assert (H1 : forall a b, In a [pt 1 0 0; pt 2 3 0; pt 3 3 4] ->
                           In b [pt 1 0 0; pt 2 3 0; pt 3 3 4] ->
                           distance_or 0 a b <= 5).
  { intros a b Ha Hb. cbn in Ha, Hb.
    destruct Ha as [<-|[<-|[<-|[]]]]; destruct Hb as [<-|[<-|[<-|[]]]];
      vm_compute; discriminate. }
  assert (H2 : N.of_nat (length [pt 1 0 0; pt 2 3 0; pt 3 3 4]) * 5 < SizeT.modulus)
    by (vm_compute; reflexivity).
  exact (nearestNeighbor_total_exact (distance_or 0)
           [pt 1 0 0; pt 2 3 0; pt 3 3 4] 1
           (mkTour [pt 1 0 0; pt 2 3 0; pt 3 3 4; pt 1 0 0] [0; 3; 4; 5] 12)
           5 H1 H2 E).
Defined.

Lemma nth_error_insert {A : Type} (l1 l2 : list A) (c : A) (k : nat) :
  nth_error (l1 ++ l2) k
  = nth_error (l1 ++ c :: l2) (if Nat.ltb k (length l1) then k else S k).
Proof.
  destruct (Nat.ltb_spec k (length l1)) as [Hlt|Hge].
  - rewrite !nth_error_app1 by assumption. reflexivity.
  - rewrite !nth_error_app2 by lia.
    replace (S k - length l1)%nat with (S (k - length l1)) by lia.
    reflexivity.
Qed.

Lemma precedes_insert {A : Type} (l1 l2 : list A) (c u v : A) :
  precedes (l1 ++ l2) u v -> precedes (l1 ++ c :: l2) u v.
Proof.
  intros (i & j & Hij & Hi & Hj).
  rewrite (nth_error_insert l1 l2 c) in Hi, Hj.
  eexists. eexists. split; [|split; eassumption].
  destruct (Nat.ltb_spec i (length l1)), (Nat.ltb_spec j (length l1)); lia.
Qed.

Lemma precedes_after {A : Type} (l1 l2 : list A) (c x : A) :
  In x l2 -> precedes (l1 ++ c :: l2) c x.
Proof.
  intros Hx. apply In_nth_error in Hx. destruct Hx as (k & Hk).
  exists (length l1), (S (length l1 + k)). split; [lia|]. split.
  - rewrite nth_error_app2, Nat.sub_diag by lia. reflexivity.
  - rewrite nth_error_app2 by lia.
    replace (S (length l1 + k) - length l1)%nat with (S k) by lia.
    exact Hk.
Qed.

Section BuilderTies.

Variable distance : Node -> Node -> N.
Variable all : list Node.

Lemma loop_body_ties_in_order (start : Node) (st st' : locals) :
  tour_invariant distance all start st
  /\ ties_in_order distance all (path (tour st)) (cities st) ->
  loop_body distance st = Returned st' ->
  tour_invariant distance all start st'
  /\ ties_in_order distance all (path (tour st')) (cities st').
Proof.
  intros [Hinv [Hord Hties]] Hbody.
  split; [apply (loop_body_invariant distance all start st st' Hinv Hbody)|].
  destruct (list_eq_dec_nil (cities st)) as [Hnil|Hne].
  { unfold loop_body, find_nearest in Hbody. rewrite Hnil in Hbody. discriminate. }
  destruct (loop_body_returns distance st Hne) as (c & l1 & l2 & Hcs & Hfn & E).
  rewrite E in Hbody. injection Hbody as <-. cbn [cities tour path].
  destruct Hinv as [_ (rest & Hpath & Hcur) _ _].
  destruct Hfn as (_ & _ & Hfirst).
  assert (Hsub : forall u, In u (l1 ++ l2) -> In u (cities st)).
  { intros u Hu. rewrite Hcs. apply in_app_or in Hu. apply in_or_app.
    destruct Hu; [left|right; right]; assumption. }
  assert (Hc : In c (cities st)) by (rewrite Hcs; apply in_elt).
  set (p := path (tour st)) in *.
  split.
  { intros u v Huv. apply Hord. rewrite Hcs. apply precedes_insert, Huv. }
  intros i a b u Ha Hb Hu Heqd.
  destruct (Nat.lt_trichotomy (S i) (length p)) as [Hlt|[Heq|Hgt]].
  - rewrite nth_error_app1 in Ha, Hb by lia.
    apply (Hties i a b u Ha Hb); [|assumption].
    destruct Hu as [Hu|(j & Hj & Hu)]; [left; auto|].
    destruct (Nat.lt_ge_cases j (length p)) as [Hjl|Hjg].
    + right. exists j. rewrite nth_error_app1 in Hu by lia. auto.
    + left. rewrite nth_error_app2 in Hu by lia.
      destruct (j - length p)%nat as [|[|k]]; cbn in Hu; try discriminate.
      congruence.
  - rewrite nth_error_app1 in Ha by lia.
    rewrite nth_error_app2, <- Heq, Nat.sub_diag in Hb by lia.
    cbn in Hb. injection Hb as <-.
    assert (Ecur : current st = a).
    { rewrite Hcur. unfold p in *. rewrite Hpath in Ha, Heq.
      replace (last rest start) with (last (start :: rest) start)
        by (destruct rest; reflexivity).
      apply (nth_error_last _ i); assumption. }
    rewrite <- Ecur in Heqd.
    destruct Hu as [Hu|(j & Hj & Hu)].
    + apply Hord. rewrite Hcs. apply in_app_or in Hu. destruct Hu as [Hu|Hu].
      * exfalso. apply In_nth_error in Hu. destruct Hu as (k & Hk).
        assert (Hkl : (k < length l1)%nat) by (apply nth_error_Some; congruence).
        assert (Hk' : nth_error (cities st) k = Some u)
          by (rewrite Hcs, nth_error_app1 by assumption; exact Hk).
        specialize (Hfirst k u Hkl Hk'). lia.
      * apply precedes_after, Hu.
    + assert (Hnone : nth_error (p ++ [c]) j = None).
      { apply nth_error_None. rewrite length_app. cbn. lia. }
      congruence.
  - assert (Hnone : nth_error (p ++ [c]) (S i) = None).
    { apply nth_error_None. rewrite length_app. cbn. lia. }
    congruence.
Qed.

End BuilderTies.

Lemma nearestNeighbor_Returned_ties (distance : Node -> Node -> N)
      (cs : list Node) (start_id : N) (t : Tour) :
  nearestNeighbor distance cs start_id = Returned t ->
  exists c rest,
    Permutation (c :: rest) cs
    /\ ties_in_order distance cs (c :: rest) []
    /\ t = closed_tour distance (c :: rest).
Proof.
  intros Hret. unfold nearestNeighbor in Hret.
  destruct (in_dec N.eq_dec start_id (map id cs)) as [Hin|Hout].
  - destruct (find_start_first cs start_id Hin)
      as (l1 & c & l2 & Hsplit & Hlen & _ & _).
    set (st0 := mkLocals (l1 ++ l2) c (mkTour [c] [0] 0)).
    pose proof (tour_invariant_init distance cs l1 l2 c Hsplit) as Hinv0.
    destruct (while_loop_returns distance cs c (length (l1 ++ l2)) st0 Hinv0 (le_n _))
      as (st & E & _ & Hnil).
    assert (Ht0 : ties_in_order distance cs (path (tour st0)) (cities st0)).
    { split.
      - intros u v Huv. rewrite Hsplit. apply precedes_insert, Huv.
      - intros i a b u Ha Hb _. destruct i; discriminate. }
    destruct (while_loop_preserves distance
                (fun s => tour_invariant distance cs c s
                          /\ ties_in_order distance cs (path (tour s)) (cities s))
                (loop_body_ties_in_order distance cs c) _ st0 st (conj Hinv0 Ht0) E)
      as [[Hperm (rest & Hpath & Hcur) Hw Ht] Hties].
    exists c, rest. rewrite Hpath, Hnil in Hties.
    split; [|split; [exact Hties|]].
    + rewrite Hpath, Hnil, app_nil_r in Hperm. assumption.
    + rewrite (nearestNeighbor_body_found distance cs l1 l2 c start_id Hsplit Hlen)
        in Hret.
      fold st0 in Hret. rewrite E in Hret. cbn [bind] in Hret.
      unfold close_tour, front in Hret. rewrite Hpath in Hret.
      cbn [deref nth_error bind fst] in Hret. injection Hret as <-.
      unfold closed_tour. cbn [firstn]. cbv zeta.
      rewrite weights_of_snoc, SizeT_sum_snoc, Ht, Hw, Hcur, Hpath.
      reflexivity.
  - rewrite (nearestNeighbor_body_undefined distance cs start_id Hout) in Hret.
    discriminate.
Qed.

(** X4: ties go by the order of the input list.  In a returned tour, when
    a city visited later ([path[j]], [i + 1 < j], the closing point apart)
    is exactly as near to [path[i]] as the city visited next
    ([path[i+1]]), the city visited next stands before it in the list that
    was passed in. *)
Theorem nearestNeighbor_ties_by_input_order (distance : Node -> Node -> N)
        (cs : list Node) (start_id : N) (t : Tour) :
  nearestNeighbor distance cs start_id = Returned t ->
  forall i j a b c,
    (S i < j)%nat -> (j < length cs)%nat ->
    nth_error (path t) i = Some a ->
    nth_error (path t) (S i) = Some b ->
    nth_error (path t) j = Some c ->
    distance a b = distance a c ->
    precedes cs b c.
Proof.
  intros Hret i j a b c Hij Hj Ha Hb Hc Heq.
  destruct (nearestNeighbor_Returned_ties distance cs start_id t Hret)
    as (s & rest & Hperm & [_ Hties] & ->).
  pose proof (Permutation_length Hperm) as Hl.
  unfold closed_tour in Ha, Hb, Hc. cbn [firstn path] in Ha, Hb, Hc.
  cbv zeta in Ha, Hb, Hc. cbn [path] in Ha, Hb, Hc.
  rewrite nth_error_app1 in Ha, Hb, Hc by lia.
  apply (Hties i a b c Ha Hb); [|assumption].
  right. exists j. split; assumption.
Qed.

Lemma nearestNeighbor_ties_by_input_order_witness :
  nearestNeighbor (distance_or 0) [pt 1 0 0; pt 3 3 4; pt 2 3 0; pt 4 0 3] 1
  = Returned (mkTour [pt 1 0 0; pt 2 3 0; pt 3 3 4; pt 4 0 3; pt 1 0 0]
                     [0; 3; 4; 3; 3] 13)
  /\ distance_or 0 (pt 1 0 0) (pt 2 3 0) = distance_or 0 (pt 1 0 0) (pt 4 0 3)
  /\ precedes [pt 1 0 0; pt 3 3 4; pt 2 3 0; pt 4 0 3] (pt 2 3 0) (pt 4 0 3).
Proof.
  assert (E : nearestNeighbor (distance_or 0)
                [pt 1 0 0; pt 3 3 4; pt 2 3 0; pt 4 0 3] 1
              = Returned (mkTour [pt 1 0 0; pt 2 3 0; pt 3 3 4; pt 4 0 3; pt 1 0 0]
                                 [0; 3; 4; 3; 3] 13))
    by (vm_compute; reflexivity).
  assert (D : distance_or 0 (pt 1 0 0) (pt 2 3 0)
              = distance_or 0 (pt 1 0 0) (pt 4 0 3))
    by (vm_compute; reflexivity).
  split; [exact E|]. split; [exact D|].
  apply (nearestNeighbor_ties_by_input_order (distance_or 0) _ 1 _ E 0 3
           (pt 1 0 0) (pt 2 3 0) (pt 4 0 3)); try reflexivity; try exact D;
    cbn; lia.
Defined.

(** * Further results on the report *)

Lemma newlines_app (a b : string) :
  newlines (a ++ b) = (newlines a + newlines b)%nat.
Proof.
  induction a as [|ch a IH]; cbn [String.append newlines]; [reflexivity|].
  rewrite IH. lia.
Qed.

Lemma newlines_single_line (s : string) :
  single_line s = true -> newlines s = 0%nat.
Proof.
  induction s as [|ch s IH]; cbn [single_line newlines]; [reflexivity|].
  destruct (Ascii.eqb ch (ascii_of_nat 10)); cbn [negb andb Nat.add];
    [discriminate|exact IH].
Qed.

Lemma newlines_unlines (ls : list string) :
  forallb single_line ls = true -> newlines (unlines ls) = length ls.
Proof.
  induction ls as [|l ls IH]; cbn [forallb unlines length]; [reflexivity|].
  intros H. apply andb_prop in H. destruct H as [Hl Hls].
  rewrite !newlines_app, (newlines_single_line l Hl), (IH Hls). reflexivity.
Qed.

Lemma display_returns_report (t : Tour) :
  (length (path t) <= 1)%nat \/ (length (path t) <= length (weights t))%nat ->
  display t = Returned (unlines (report_lines t)).
Proof.
  intros Hlen. unfold display, report_lines, edges.
  destruct (path t) as [|a rest] eqn:Hp.
  - cbn [length display_loop]. rewrite Hp. reflexivity.
  - destruct rest as [|b rest].
    + cbn [length display_loop]. rewrite Hp. reflexivity.
    + destruct Hlen as [Hlen|Hlen]; [cbn in Hlen; lia|].
      destruct (weights t) as [|w0 ws] eqn:Hw; [cbn in Hlen; lia|].
      cbn [length] in Hlen. cbn [tl]. rewrite <- Hp.
      assert (E : display_loop (length (path t)) t 1 EmptyString
                  = Returned (unlines (map edge_text (pairs_from a (b :: rest) ws)))).
      { apply (display_loop_writes t (b :: rest) [] a [w0] ws
                 (length (path t)) EmptyString);
          try assumption; try reflexivity; rewrite ?Hp; cbn [length]; lia. }
      rewrite E. cbn [bind]. rewrite unlines_app. cbn [unlines String.append].
      rewrite string_app_nil_r. reflexivity.
Qed.

(** The loop runs into the first index that [weights] does not have. *)
Lemma display_loop_out_of_range (t : Tour) (n i fuel : nat) (out : string) :
  (1 <= i)%nat ->
  (i + n = Nat.max 1 (length (weights t)))%nat ->
  (Nat.max 1 (length (weights t)) < length (path t))%nat ->
  (length (path t) - i <= fuel)%nat ->
  display_loop fuel t i out = Undefined.
Proof.
  revert i fuel out. induction n as [|n IH]; intros i fuel out Hi Hk Hlt Hfuel;
    (destruct fuel as [|fuel]; [lia|]); cbn [display_loop];
    (assert (E : Nat.ltb i (length (path t)) = true) by (apply Nat.ltb_lt; lia));
    rewrite E; unfold deref at 1 2;
    (destruct (nth_error (path t) (i - 1)) as [a|] eqn:Ha;
       [|apply nth_error_None in Ha; lia]);
    (destruct (nth_error (path t) i) as [b|] eqn:Hb;
       [|apply nth_error_None in Hb; lia]);
    cbn [bind]; unfold deref at 1.
  - rewrite (proj2 (nth_error_None (weights t) i)) by lia. reflexivity.
  - destruct (nth_error (weights t) i) as [w|] eqn:Hw;
      [|apply nth_error_None in Hw; lia].
    cbn [bind]. apply IH; lia.
Qed.

Lemma display_undefined (t : Tour) :
  (2 <= length (path t))%nat ->
  (length (weights t) < length (path t))%nat ->
  display t = Undefined.
Proof.
  intros H2 Hlt. unfold display.
  rewrite (display_loop_out_of_range t (Nat.max 1 (length (weights t)) - 1) 1);
    try reflexivity; lia.
Qed.

(** X5: what [display] needs of a tour.  It reads [weights[1]] to
    [weights[path.size() - 1]] and nothing else of [weights]: with at most
    one point in the path, or with at least as many weights as points, it
    writes the report (weights beyond the path are ignored, and so is
    [weights[0]]); with two or more points and fewer weights than points it
    reads [weights] out of range, which is undefined. *)
Theorem display_defined_iff (t : Tour) :
  (display t = Returned (unlines (report_lines t))
   <-> (length (path t) <= 1)%nat \/ (length (path t) <= length (weights t))%nat)
  /\ (display t = Undefined
      <-> (2 <= length (path t))%nat /\ (length (weights t) < length (path t))%nat).
Proof.
  destruct (Nat.le_gt_cases (length (path t)) 1) as [H1|H1].
  - pose proof (display_returns_report t (or_introl H1)) as E.
    rewrite E. split; split; try discriminate; auto; lia.
  - destruct (Nat.le_gt_cases (length (path t)) (length (weights t))) as [H2|H2].
    + pose proof (display_returns_report t (or_intror H2)) as E.
      rewrite E. split; split; try discriminate; auto; lia.
    + rewrite (display_undefined t H1 H2).
      split; split; try discriminate; auto; lia.
Qed.

(** X6: the report of a built tour.  [display] of a tour returned by
    [nearestNeighbor] for [n] cities is defined and writes [n + 1] lines:
    [n] edge lines and the total line. *)
Theorem display_nearestNeighbor (distance : Node -> Node -> N)
        (cs : list Node) (start_id : N) (t : Tour) :
  nearestNeighbor distance cs start_id = Returned t ->
  display t = Returned (unlines (report_lines t))
  /\ length (edges t) = length cs
  /\ length (report_lines t) = S (length cs)
  /\ newlines (unlines (report_lines t)) = S (length cs).
Proof.
  intros Hret.
  destruct (nearestNeighbor_Returned_inv distance cs start_id t Hret)
    as (s & rest & _ & Hperm & Ht).
  pose proof (Permutation_length Hperm) as Hl. cbn [length] in Hl.
  assert (Hw : length (weights t) = length (path t)).
  { rewrite Ht. unfold closed_tour. cbv zeta. cbn [weights path].
    apply length_weights_of. }
  assert (Hedges : length (edges t) = length cs).
  { unfold edges. rewrite Ht. unfold closed_tour. cbn [firstn]. cbv zeta.
    cbn [path weights app weights_of tl].
    rewrite length_pairs_from by (rewrite length_legs; lia).
    rewrite length_app. cbn. lia. }
  assert (Hlines : length (report_lines t) = S (length cs)).
  { unfold report_lines. rewrite length_app, length_map, Hedges. cbn. lia. }
  split; [apply display_returns_report; right; lia|].
  split; [exact Hedges|]. split; [exact Hlines|].
  rewrite newlines_unlines by apply report_lines_single_line. exact Hlines.
Qed.

Lemma display_nearestNeighbor_witness :
  nearestNeighbor (distance_or 0) [pt 1 0 0; pt 2 3 0; pt 3 3 4] 1
  = Returned (mkTour [pt 1 0 0; pt 2 3 0; pt 3 3 4; pt 1 0 0] [0; 3; 4; 5] 12)
  /\ display (mkTour [pt 1 0 0; pt 2 3 0; pt 3 3 4; pt 1 0 0] [0; 3; 4; 5] 12)
     = Returned (unlines ["EDGE 1 -> 2 | WEIGHT : 3";
                          "EDGE 2 -> 3 | WEIGHT : 4";
                          "EDGE 3 -> 1 | WEIGHT : 5";
                          "TOTAL DISTANCE: 12"]%string).
Proof.
  assert (E : nearestNeighbor (distance_or 0) [pt 1 0 0; pt 2 3 0; pt 3 3 4] 1
              = Returned (mkTour [pt 1 0 0; pt 2 3 0; pt 3 3 4; pt 1 0 0]
                                 [0; 3; 4; 5] 12))
    by (vm_compute; reflexivity).
  split; [exact E|].
  exact (proj1 (display_nearestNeighbor (distance_or 0) _ 1 _ E)).
Defined.

(** * Results on the reader of city files *)

Lemma find_marker_zero (line : string) :
  (find line marker =? 0) = starts_section line.
Proof.
  unfold find, starts_section. destruct line as [|b l].
  - reflexivity.
  - cbn [index]. destruct (prefix marker (String b l)); [reflexivity|].
    destruct (index 0 marker l); [|reflexivity].
    apply N.eqb_neq. lia.
Qed.

Lemma read_line_lines_of (s : string) :
  lines_of s
  = match read_line s with
    | (l, Some rest) => l :: lines_of rest
    | (l, None) => [l]
    end.
Proof.
  induction s as [|c s IH]; cbn [read_line lines_of]; [reflexivity|].
  destruct (Ascii.eqb c newline); [reflexivity|].
  rewrite IH. destruct (read_line s) as [l [rest|]]; reflexivity.
Qed.

Lemma read_line_single_line (l s : string) :
  single_line l = true ->
  read_line (l ++ endl ++ s) = (l, Some s).
Proof.
  induction l as [|c l IH]; cbn [single_line String.append read_line].
  - intros _. reflexivity.
  - intros H. apply andb_prop in H. destruct H as [Hc Hl].
    apply negb_true_iff in Hc. unfold newline. rewrite Hc, (IH Hl). reflexivity.
Qed.

Lemma read_line_last_line (l : string) :
  single_line l = true -> read_line l = (l, None).
Proof.
  induction l as [|c l IH]; cbn [single_line read_line].
  - intros _. reflexivity.
  - intros H. apply andb_prop in H. destruct H as [Hc Hl].
    apply negb_true_iff in Hc. unfold newline. rewrite Hc, (IH Hl). reflexivity.
Qed.

(** Without a line that begins with the marker, the first loop goes on
    for ever: past the end of the text [getline] fails and leaves the last
    line in [line], which is tested again. *)
Lemma skip_header_never (fuel : nat) (fin : istream) (line : string) :
  (if good fin
   then forallb (fun l => negb (starts_section l)) (lines_of (unread fin))
   else negb (starts_section line)) = true ->
  skip_header fuel fin line = OutOfFuel.
Proof.
  revert fin line. induction fuel as [|fuel IH]; intros fin line H;
    [reflexivity|].
  cbn [skip_header]. unfold getline.
  destruct (good fin) eqn:Hgood.
  - rewrite read_line_lines_of in H.
    destruct (read_line (unread fin)) as [l [rest|]];
      cbn [forallb] in H; apply andb_prop in H; destruct H as [Hl Hrest];
      rewrite find_marker_zero; apply negb_true_iff in Hl as Hl'; rewrite Hl';
      apply IH.
    + exact Hrest.
    + exact Hl.
  - rewrite find_marker_zero. apply negb_true_iff in H as H'. rewrite H'.
    apply IH. unfold good. cbn [eofbit failbit]. rewrite andb_false_r. exact H.
Qed.

(** The lines before the first one that begins with the marker are read
    and dropped. *)
Lemma skip_header_skips (pre : list string) (tail line line' : string) (fuel : nat) :
  forallb single_line pre = true ->
  forallb (fun l => negb (starts_section l)) pre = true ->
  skip_header (length pre + fuel) (mkIstream (unlines pre ++ tail) false false) line
  = skip_header fuel (mkIstream tail false false) line'.
Proof.
  revert line. induction pre as [|l pre IH]; intros line Hs Hm.
  - cbn [length unlines Nat.add String.append].
    destruct fuel; [reflexivity|]. reflexivity.
  - cbn [forallb] in Hs, Hm.
    apply andb_prop in Hs. destruct Hs as [Hl Hs].
    apply andb_prop in Hm. destruct Hm as [Hn Hm].
    cbn [length Nat.add skip_header unlines]. unfold getline.
    cbn [good eofbit failbit negb andb unread].
    rewrite !string_app_assoc, (read_line_single_line l _ Hl).
    rewrite find_marker_zero. apply negb_true_iff in Hn. rewrite Hn.
    apply IH; assumption.
Qed.

Lemma skip_header_found (mline rest line : string) (fuel : nat) :
  single_line mline = true ->
  starts_section mline = true ->
  skip_header (S fuel) (mkIstream (mline ++ endl ++ rest) false false) line
  = Returned (mkIstream rest false false, mline).
Proof.
  intros Hs Hm. cbn [skip_header]. unfold getline.
  cbn [good eofbit failbit negb andb unread].
  rewrite (read_line_single_line mline rest Hs), find_marker_zero, Hm.
  reflexivity.
Qed.

Lemma skip_header_found_at_end (mline line : string) (fuel : nat) :
  single_line mline = true ->
  starts_section mline = true ->
  skip_header (S fuel) (mkIstream mline false false) line
  = Returned (mkIstream EmptyString true false, mline).
Proof.
  intros Hs Hm. cbn [skip_header]. unfold getline.
  cbn [good eofbit failbit negb andb unread].
  rewrite (read_line_last_line mline Hs), find_marker_zero, Hm.
  destruct mline; [discriminate Hm|reflexivity].
Qed.

(** X7: a file without the section never comes back.  When the file can
    be opened and none of its lines begins with [NODE_COORD_SECTION] (the
    word may stand further inside a line), [constructCities] does not
    return and does not throw: whatever bound is put on its first loop,
    the loop has not ended. *)
Theorem constructCities_without_section
        (extract_size_t : istream -> N -> istream * N)
        (extract_double : istream -> spec_float -> istream * spec_float)
        (fs : string -> option string) (ID0 : N) (x0 y0 : spec_float)
        (filename text : string) :
  fs filename = Some text ->
  forallb (fun l => negb (starts_section l)) (lines_of text) = true ->
  forall fuel,
    constructCities extract_size_t extract_double fs ID0 x0 y0 fuel filename
    = OutOfFuel.
Proof.
  intros Hfs Hlines fuel. unfold constructCities, open. rewrite Hfs.
  cbn [failbit]. rewrite skip_header_never; [reflexivity|exact Hlines].
Qed.

Lemma constructCities_without_section_witness :
  lines_of ("TYPE: NODE_COORD_SECTION" ++ endl ++ "1 0 0" ++ endl)
  = ["TYPE: NODE_COORD_SECTION"; "1 0 0"; ""]%string
  /\ constructCities (extract_unsigned (fun n => n))
       (extract_unsigned (fun n => Double.of_Z (Z.of_N n)))
       (fun _ => Some ("TYPE: NODE_COORD_SECTION" ++ endl ++ "1 0 0" ++ endl)%string)
       0 S754_nan S754_nan 1000 "cities.tsp"
     = OutOfFuel.
Proof.
  split; [reflexivity|].
  apply (constructCities_without_section _ _ _ 0 S754_nan S754_nan "cities.tsp"
           ("TYPE: NODE_COORD_SECTION" ++ endl ++ "1 0 0" ++ endl)%string);
    reflexivity.
Defined.

(** X8: the header is skipped.  When the file consists of lines none of
    which begins with [NODE_COORD_SECTION], then a line that does, then
    further text, [constructCities] drops everything up to the end of
    that line, whatever it holds, and reads the cities from the text after
    it. *)
Theorem constructCities_skips_header
        (extract_size_t : istream -> N -> istream * N)
        (extract_double : istream -> spec_float -> istream * spec_float)
        (fs : string -> option string) (ID0 : N) (x0 y0 : spec_float)
        (fuel : nat) (filename : string)
        (pre : list string) (mline rest : string) :
  fs filename = Some (unlines pre ++ mline ++ endl ++ rest)%string ->
  forallb single_line pre = true ->
  forallb (fun l => negb (starts_section l)) pre = true ->
  single_line mline = true ->
  starts_section mline = true ->
  (length pre < fuel)%nat ->
  constructCities extract_size_t extract_double fs ID0 x0 y0 fuel filename
  = (cities <- read_cities extract_size_t extract_double fuel
                 (mkIstream rest false false) ID0 x0 y0 [] ;;
     Returned (EmptyString, Normal cities)).
Proof.
  intros Hfs Hs Hn Hms Hm Hfuel. unfold constructCities, open. rewrite Hfs.
  cbn [failbit].
  replace fuel with (length pre + S (fuel - S (length pre)))%nat at 1 by lia.
  rewrite (skip_header_skips pre _ EmptyString EmptyString _ Hs Hn).
  rewrite (skip_header_found mline rest EmptyString _ Hms Hm).
  reflexivity.
Qed.

Lemma constructCities_skips_header_witness :
  constructCities (extract_unsigned (fun n => n))
    (extract_unsigned (fun n => Double.of_Z (Z.of_N n)))
    (fun _ => Some (unlines ["NAME: three"; "TYPE: TSP"]
                    ++ "NODE_COORD_SECTION" ++ endl
                    ++ unlines ["1 0 0"; "2 3 0"; "3 3 4"; "EOF"])%string)
    0 S754_nan S754_nan 10 "three.tsp"
  = Returned (EmptyString, Normal [pt 1 0 0; pt 2 3 0; pt 3 3 4]).
Proof.
  rewrite (constructCities_skips_header _ _ _ 0 S754_nan S754_nan 10 "three.tsp"
             ["NAME: three"; "TYPE: TSP"]%string "NODE_COORD_SECTION"
             (unlines ["1 0 0"; "2 3 0"; "3 3 4"; "EOF"]%string));
    try reflexivity.
  cbn. lia.
Defined.

(** X9: a file that ends with the section line is an empty collection.
    When the first line that begins with [NODE_COORD_SECTION] is the last
    line of the file and no newline follows it, [constructCities] returns
    the empty list without attempting an extraction. *)
Theorem constructCities_section_at_end
        (extract_size_t : istream -> N -> istream * N)
        (extract_double : istream -> spec_float -> istream * spec_float)
        (fs : string -> option string) (ID0 : N) (x0 y0 : spec_float)
        (fuel : nat) (filename : string)
        (pre : list string) (mline : string) :
  fs filename = Some (unlines pre ++ mline)%string ->
  forallb single_line pre = true ->
  forallb (fun l => negb (starts_section l)) pre = true ->
  single_line mline = true ->
  starts_section mline = true ->
  (length pre < fuel)%nat ->
  constructCities extract_size_t extract_double fs ID0 x0 y0 fuel filename
  = Returned (EmptyString, Normal []).
Proof.
  intros Hfs Hs Hn Hms Hm Hfuel. unfold constructCities, open. rewrite Hfs.
  cbn [failbit].
  replace fuel with (length pre + S (fuel - S (length pre)))%nat at 1 by lia.
  rewrite (skip_header_skips pre _ EmptyString EmptyString _ Hs Hn).
  rewrite (skip_header_found_at_end mline EmptyString _ Hms Hm).
  cbn [bind fst]. destruct fuel; reflexivity.
Qed.

Lemma constructCities_section_at_end_witness :
  constructCities (extract_unsigned (fun n => n))
    (extract_unsigned (fun n => Double.of_Z (Z.of_N n)))
    (fun _ => Some (unlines ["NAME: none"] ++ "NODE_COORD_SECTION")%string)
    0 S754_nan S754_nan 10 "none.tsp"
  = Returned (EmptyString, Normal []).
Proof.
  apply (constructCities_section_at_end _ _ _ 0 S754_nan S754_nan 10 "none.tsp"
           ["NAME: none"]%string "NODE_COORD_SECTION");
    try reflexivity.
  cbn. lia.
Defined.

(** X10: the one error.  [constructCities] throws exactly when the file
    cannot be opened: it then writes the line [ERROR: Could not read file:
    <filename>] to [std::cerr] and throws [std::runtime_error("Failed to
    read file. Terminating.")]; for a file that it can open it never
    throws, whatever the file holds. *)
Theorem constructCities_throws_iff
        (extract_size_t : istream -> N -> istream * N)
        (extract_double : istream -> spec_float -> istream * spec_float)
        (fs : string -> option string) (ID0 : N) (x0 y0 : spec_float)
        (fuel : nat) (filename : string) :
  (fs filename = None <->
   constructCities extract_size_t extract_double fs ID0 x0 y0 fuel filename
   = Returned (("ERROR: Could not read file: " ++ filename ++ endl)%string,
               Throw "Failed to read file. Terminating."))
  /\ (forall cerr what,
         constructCities extract_size_t extract_double fs ID0 x0 y0 fuel filename
         = Returned (cerr, Throw what) ->
         fs filename = None).
Proof.
  assert (Hnever : forall cerr what,
             constructCities extract_size_t extract_double fs ID0 x0 y0 fuel filename
             = Returned (cerr, Throw what) ->
             fs filename = None).
  { intros cerr what. unfold constructCities, open.
    destruct (fs filename) as [text|]; [|reflexivity].
    cbn [failbit].
    destruct (skip_header fuel _ EmptyString) as [[fin line]| |]; cbn [bind fst];
      try discriminate.
    destruct (read_cities extract_size_t extract_double fuel fin ID0 x0 y0 []);
      cbn [bind]; discriminate. }
  split; [split|exact Hnever].
  - intros Hnone. unfold constructCities, open. rewrite Hnone. reflexivity.
  - apply Hnever.
Qed.

(** * The order of the input list *)

Lemma NoDup_map_injective {A B : Type} (f : A -> B) (l : list A) (a b : A) :
  NoDup (map f l) -> In a l -> In b l -> f a = f b -> a = b.
Proof.
  induction l as [|u l IH]; cbn [map In]; intros Hnd Ha Hb Hf; [tauto|].
  inversion Hnd as [|? ? Hnotin Hnd']; subst.
  destruct Ha as [<-|Ha], Hb as [<-|Hb]; auto.
  - exfalso. apply Hnotin. rewrite Hf. apply in_map, Hb.
  - exfalso. apply Hnotin. rewrite <- Hf. apply in_map, Ha.
Qed.

Section OrderIndependence.

Variable distance : Node -> Node -> N.
Variable cs : list Node.

(** No two cities of [cs] are equally far from a third. *)
Hypothesis no_ties :
  forall a b c, In a cs -> In b cs -> In c cs ->
                b <> a -> c <> a ->
                distance a b = distance a c -> b = c.

Lemma loop_body_any_order (st1 st2 : locals) :
  current st1 = current st2 ->
  tour st1 = tour st2 ->
  Permutation (cities st1) (cities st2) ->
  In (current st1) cs ->
  incl (cities st1) cs ->
  NoDup (current st1 :: cities st1) ->
  cities st1 <> [] ->
  exists st1' st2',
    loop_body distance st1 = Returned st1'
    /\ loop_body distance st2 = Returned st2'
    /\ current st1' = current st2'
    /\ tour st1' = tour st2'
    /\ Permutation (cities st1') (cities st2')
    /\ In (current st1') cs
    /\ incl (cities st1') cs
    /\ NoDup (current st1' :: cities st1')
    /\ length (cities st1) = S (length (cities st1')).
Proof.
  intros Hcur Htour Hperm Hin Hincl Hnodup Hne1.
  assert (Hne2 : cities st2 <> []).
  { intros E. rewrite E in Hperm. apply Permutation_sym, Permutation_nil in Hperm.
    contradiction. }
  destruct (loop_body_returns distance st1 Hne1)
    as (c1 & l1 & l2 & Hcs1 & (Hn1 & Hmin1 & _) & E1).
  destruct (loop_body_returns distance st2 Hne2)
    as (c2 & m1 & m2 & Hcs2 & (Hn2 & Hmin2 & _) & E2).
  assert (Hc1 : In c1 (cities st1)) by (rewrite Hcs1; apply in_elt).
  assert (Hc2 : In c2 (cities st2)) by (rewrite Hcs2; apply in_elt).
  assert (Hc2' : In c2 (cities st1))
    by (apply (Permutation_in _ (Permutation_sym Hperm)), Hc2).
  assert (Hc1' : In c1 (cities st2)) by (apply (Permutation_in _ Hperm), Hc1).
  inversion Hnodup as [|? ? Hnotin Hnd]; subst.
  assert (Heq : c1 = c2).
  { apply (no_ties (current st1)); auto.
    - intros E. apply Hnotin. rewrite <- E. exact Hc1.
    - intros E. apply Hnotin. rewrite <- E. exact Hc2'.
    - pose proof (Hmin1 c2 Hc2') as H1. pose proof (Hmin2 c1 Hc1') as H2.
      rewrite <- Hcur in H2. lia. }
  subst c2. rewrite E1, E2.
  eexists. eexists. split; [reflexivity|]. split; [reflexivity|].
  cbn [current tour cities]. rewrite Hcur, Htour.
  repeat split; auto.
  - rewrite Hcs1, Hcs2 in Hperm. apply (Permutation_app_inv _ _ _ _ _ Hperm).
  - intros u Hu. apply Hincl. rewrite Hcs1. apply in_app_or in Hu.
    apply in_or_app. destruct Hu; [left|right; right]; assumption.
  - rewrite Hcs1 in Hnd. constructor.
    + apply (NoDup_remove_2 _ _ _ Hnd).
    + apply (NoDup_remove_1 _ _ _ Hnd).
  - rewrite Hcs1, !length_app. cbn [length]. lia.
Qed.

Lemma while_loop_any_order (fuel : nat) (st1 st2 : locals) :
  current st1 = current st2 ->
  tour st1 = tour st2 ->
  Permutation (cities st1) (cities st2) ->
  In (current st1) cs ->
  incl (cities st1) cs ->
  NoDup (current st1 :: cities st1) ->
  (length (cities st1) <= fuel)%nat ->
  exists r1 r2,
    while_loop distance fuel st1 = Returned r1
    /\ while_loop distance fuel st2 = Returned r2
    /\ current r1 = current r2
    /\ tour r1 = tour r2
    /\ cities r1 = cities r2.
Proof.
  revert st1 st2.
  induction fuel as [|fuel IH];
    intros st1 st2 Hcur Htour Hperm Hin Hincl Hnodup Hfuel;
    cbn [while_loop];
    destruct (list_eq_dec_nil (cities st1)) as [Hnil|Hne].
  - pose proof Hperm as Hp. rewrite Hnil in Hp. apply Permutation_nil in Hp.
    rewrite Hnil, Hp. exists st1, st2. rewrite Hnil, Hp. auto.
  - destruct (cities st1); [congruence|cbn in Hfuel; lia].
  - pose proof Hperm as Hp. rewrite Hnil in Hp. apply Permutation_nil in Hp.
    rewrite Hnil, Hp. exists st1, st2. rewrite Hnil, Hp. auto.
  - destruct (loop_body_any_order st1 st2 Hcur Htour Hperm Hin Hincl Hnodup Hne)
      as (st1' & st2' & E1 & E2 & Hcur' & Htour' & Hperm' & Hin' & Hincl'
          & Hnodup' & Hlen).
    assert (Hne2 : cities st2 <> []).
    { intros E. rewrite E in Hperm.
      apply Permutation_sym, Permutation_nil in Hperm. contradiction. }
    destruct (cities st1) eqn:Hc1; [congruence|].
    destruct (cities st2) eqn:Hc2; [congruence|].
    rewrite E1, E2. cbn [bind].
    apply IH; auto. cbn [length] in *. lia.
Qed.

Lemma nearestNeighbor_any_order (cs' : list Node) (start_id : N) :
  Permutation cs cs' ->
  NoDup (map id cs) ->
  nearestNeighbor distance cs start_id = nearestNeighbor distance cs' start_id.
Proof.
  intros Hperm Hnodup. unfold nearestNeighbor.
  destruct (in_dec N.eq_dec start_id (map id cs)) as [Hin|Hout].
  - assert (Hin' : In start_id (map id cs'))
      by (apply (Permutation_in _ (Permutation_map id Hperm)), Hin).
    destruct (find_start_first cs start_id Hin)
      as (l1 & c & l2 & Hsplit & Hlen & Hid & _).
    destruct (find_start_first cs' start_id Hin')
      as (m1 & c' & m2 & Hsplit' & Hlen' & Hid' & _).
    assert (Hc : In c cs) by (rewrite Hsplit; apply in_elt).
    assert (Hc' : In c' cs).
    { apply (Permutation_in _ (Permutation_sym Hperm)).
      rewrite Hsplit'. apply in_elt. }
    assert (Heq : c = c')
      by (apply (NoDup_map_injective id cs); congruence).
    subst c'.
    rewrite (nearestNeighbor_body_found distance cs l1 l2 c start_id Hsplit Hlen).
    rewrite (nearestNeighbor_body_found distance cs' m1 m2 c start_id Hsplit' Hlen').
    assert (Hp : Permutation (l1 ++ l2) (m1 ++ m2)).
    { rewrite Hsplit, Hsplit' in Hperm. apply (Permutation_app_inv _ _ _ _ _ Hperm). }
    assert (Hnd : NoDup (c :: l1 ++ l2)).
    { apply NoDup_map_inv in Hnodup. rewrite Hsplit in Hnodup. constructor.
      - apply (NoDup_remove_2 _ _ _ Hnodup).
      - apply (NoDup_remove_1 _ _ _ Hnodup). }
    rewrite <- (Permutation_length Hp).
    destruct (while_loop_any_order (length (l1 ++ l2))
                (mkLocals (l1 ++ l2) c (mkTour [c] [0] 0))
                (mkLocals (m1 ++ m2) c (mkTour [c] [0] 0)))
      as (r1 & r2 & E1 & E2 & Hcur & Htour & Hcit); cbn [current tour cities]; auto.
    + intros u Hu. rewrite Hsplit. apply in_app_or in Hu.
      apply in_or_app. destruct Hu; [left|right; right]; assumption.
    + rewrite E1, E2. cbn [bind]. unfold close_tour.
      rewrite Hcur, Htour, Hcit. reflexivity.
  - assert (Hout' : ~ In start_id (map id cs')).
    { intros H. apply Hout.
      apply (Permutation_in _ (Permutation_sym (Permutation_map id Hperm))), H. }
    rewrite !nearestNeighbor_body_undefined by assumption. reflexivity.
Qed.

End OrderIndependence.

(** X11: without ties the order of the list does not matter.  When the
    ids are distinct and no two cities of the collection are equally far
    from a third city, [nearestNeighbor] gives the same outcome for every
    rearrangement of the list. *)
Theorem nearestNeighbor_order_independent (distance : Node -> Node -> N)
        (cs cs' : list Node) (start_id : N) :
  (forall a b c, In a cs -> In b cs -> In c cs ->
                 b <> a -> c <> a ->
                 distance a b = distance a c -> b = c) ->
  NoDup (map id cs) ->
  Permutation cs cs' ->
  nearestNeighbor distance cs start_id = nearestNeighbor distance cs' start_id.
Proof.
  intros Hties Hnodup Hperm.
  apply (nearestNeighbor_any_order distance cs Hties cs' start_id Hperm Hnodup).
Qed.

Lemma nearestNeighbor_order_independent_witness :
  distance_or 0 (pt 1 0 0) (pt 1 0 0) = distance_or 0 (pt 1 0 0) pt_half
  /\ nearestNeighbor (distance_or 0) [pt 1 0 0; pt_half; pt 3 10 0] 1
     = nearestNeighbor (distance_or 0) [pt 3 10 0; pt 1 0 0; pt_half] 1.
Proof.
  split; [vm_compute; reflexivity|].
  apply (nearestNeighbor_order_independent (distance_or 0)
           [pt 1 0 0; pt_half; pt 3 10 0] [pt 3 10 0; pt 1 0 0; pt_half] 1).
  - intros a b c Ha Hb Hc Hba Hca. cbn in Ha, Hb, Hc.
    destruct Ha as [<-|[<-|[<-|[]]]]; destruct Hb as [<-|[<-|[<-|[]]]];
      destruct Hc as [<-|[<-|[<-|[]]]];
      try (intros _; reflexivity); try (exfalso; apply Hba; reflexivity);
      try (exfalso; apply Hca; reflexivity);
      intros H; vm_compute in H; discriminate H.
  - cbn. repeat constructor; cbn; intuition discriminate.
  - apply Permutation_sym.
    apply (Permutation_cons_append [pt 1 0 0; pt_half] (pt 3 10 0)).
Defined.
